(** * TEASAR skeletonization (igneous/tasks/skeletonization/skeletonization.py)

    A shallow embedding of the skeletonization core: [TEASAR],
    [compute_paths], [find_root], [is_power_of_two], [compute_pdrf] and
    [path_union], and the pixels of [xy_path_projection], followed by the
    properties established about them.

    Conventions.
    - Python values that may raise are computations in [result]; loops that
      Python runs with [while] take a [fuel] and give [OutOfFuel] when it is
      used up.
    - numpy floats are IEEE 754 values ([spec_float]); binary32 and binary64
      operations are the correctly rounded ones of [SpecFloat].
    - A dense 3D array is its shape and its elements in row-major (C) order,
      the order [np.argmax] and [np.unravel_index] use; [asfortranarray] and
      [ascontiguousarray] change the memory layout only and are the identity
      here.
    - Functions of the repository or of other packages whose code is not part
      of the module are fields of [Collaborators]. *)

From Stdlib Require Import ZArith List Bool Lia SpecFloat.
From stdpp Require Import base option list gmap sets.

Local Open Scope Z_scope.

(** ** Outcomes of Python computations *)

Inductive exn : Type :=
| ValueError      (* np.max / np.argmax of a zero-size array, slice step 0 *)
| IndexError      (* index out of bounds *)
| KeyError        (* missing dict key *)
| EmptyMask       (* the traversal engine's source is not in the mask *)
| InvalidOption.  (* named by the specification; nothing in the module raises it *)

Inductive result (A : Type) : Type :=
| Ok (a : A)
| Raise (e : exn)
| OutOfFuel.

Arguments Ok {A} a.
Arguments Raise {A} e.
Arguments OutOfFuel {A}.

#[global] Instance result_ret : MRet result := fun A a => Ok a.

#[global] Instance result_bind : MBind result := fun A B k m =>
  match m with
  | Ok a => k a
  | Raise e => Raise e
  | OutOfFuel => OutOfFuel
  end.

Fixpoint mapM {A B : Type} (f : A -> result B) (l : list A) : result (list B) :=
  match l with
  | [] => Ok []
  | a :: l' => b ← f a; bs ← mapM f l'; Ok (b :: bs)
  end.

(** ** Numbers *)

Definition float : Type := spec_float.

(** Rounding to the format of precision [prec] (to nearest, ties to even);
    exact when the value is representable there. Comparisons and operations
    take both operands in one format. *)
Definition round_to (prec emax : Z) (x : float) : float :=
  match x with
  | S754_finite s m e => binary_normalize prec emax (cond_Zopp s (Z.pos m)) e s
  | _ => x
  end.

Module F32.
Definition prec : Z := 24.
Definition emax : Z := 128.
Definition of_Z (z : Z) : float := binary_normalize prec emax z 0 false.
Definition one : float := of_Z 1.
Definition add : float -> float -> float := SFadd prec emax.
Definition sub : float -> float -> float := SFsub prec emax.
Definition mul : float -> float -> float := SFmul prec emax.
(** [np.float32(x)] of a binary64 [x]. *)
Definition of_float : float -> float := round_to prec emax.
End F32.

Module F64.
Definition prec : Z := 53.
Definition emax : Z := 1024.
Definition of_Z (z : Z) : float := binary_normalize prec emax z 0 false.
Definition zero : float := S754_zero false.
Definition add : float -> float -> float := SFadd prec emax.
Definition mul : float -> float -> float := SFmul prec emax.
Definition div : float -> float -> float := SFdiv prec emax.
Definition sqrt : float -> float := SFsqrt prec emax.
(** The binary64 value of a binary32 number, as numpy promotes it. *)
Definition of_f32 : float -> float := round_to prec emax.
End F64.

Definition is_nan (x : float) : bool :=
  match x with S754_nan => true | _ => false end.

(** [a > b] on floats: false when either side is NaN. *)
Definition fgt (a b : float) : bool := SFltb b a.

(** An unsigned 32-bit store: the value modulo 2^32. *)
Definition u32 (z : Z) : Z := z mod 2 ^ 32.

(** ** Voxels, paths and dense arrays *)

Abbreviation voxel := (Z * Z * Z)%type.
Abbreviation path := (list voxel).

Record ndarray (A : Type) : Type := mk_ndarray {
  shape : nat * nat * nat;
  data : list A
}.

Arguments mk_ndarray {A} shape data.
Arguments shape {A} n.
Arguments data {A} n.

Definition mask : Type := ndarray bool.
Definition field : Type := ndarray float.

(** [np.unravel_index(i, shape)] in C order. *)
Definition unravel_index (i : nat) (sh : nat * nat * nat) : voxel :=
  let '(_, ny, nz) := sh in
  (Z.of_nat (i / (ny * nz)), Z.of_nat ((i / nz) mod ny), Z.of_nat (i mod nz)).

(** Flat position of an in-bounds non-negative index; [None] is IndexError. *)
Definition ravel (sh : nat * nat * nat) (v : voxel) : option nat :=
  let '(nx, ny, nz) := sh in
  let '(x, y, z) := v in
  if (0 <=? x) && (x <? Z.of_nat nx) && (0 <=? y) && (y <? Z.of_nat ny)
     && (0 <=? z) && (z <? Z.of_nat nz)
  then Some (Z.to_nat x * (ny * nz) + Z.to_nat y * nz + Z.to_nat z)%nat
  else None.

Definition get {A : Type} (a : ndarray A) (v : voxel) : result A :=
  match ravel (shape a) v with
  | Some i => match data a !! i with Some x => Ok x | None => Raise IndexError end
  | None => Raise IndexError
  end.

(** [np.count_nonzero(labels)]. *)
Definition count_nonzero (labels : mask) : Z :=
  Z.of_nat (length (List.filter id (data labels))).

(** [np.max]: NaN propagates; a zero-size array raises. *)
Definition fmax (a b : float) : float :=
  if is_nan a then a else if is_nan b then b else if SFltb a b then b else a.

Definition np_max (a : field) : result float :=
  match data a with
  | [] => Raise ValueError
  | x :: xs => Ok (fold_left fmax xs x)
  end.

(** [np.argmax]: the first position of the maximum, a NaN counting as the
    maximum; a zero-size array raises. [argmax_from best bi i xs] scans [xs],
    whose first element sits at position [i]. *)
Fixpoint argmax_from (best : float) (bi i : nat) (xs : list float) : nat :=
  if is_nan best then bi else
  match xs with
  | [] => bi
  | x :: xs' =>
      if negb (SFleb x best) then argmax_from x i (S i) xs'
      else argmax_from best bi (S i) xs'
  end.

Definition np_argmax (a : field) : result nat :=
  match data a with
  | [] => Raise ValueError
  | x :: xs => Ok (argmax_from x 0%nat 1%nat xs)
  end.

(** ** [is_power_of_two] and [compute_pdrf]

    [pdrf_exponent] is an integer here, so the test [int(num) != num] of
    [is_power_of_two] never fires. *)

Definition is_power_of_two (num : Z) : bool :=
  negb (num =? 0) && (Z.land num (num - 1) =? 0).

(** [compute_pdrf] over an arithmetic given by its operations, so that it can
    be read both in binary32, as numpy runs it, and in an exact arithmetic.
    [M_of x] is [f(1 / (x ** 1.01))], [f] is [np.float32] and [fpow] is the
    elementwise [**] of numpy. [int(np.log2(e))] is [Z.log2 e]: the line is
    reached for exact powers of two only, where [np.log2] is exact. *)
Section PDRF.
Context {F : Type}.
Variables (fone : F) (fsub fmul fadd : F -> F -> F) (fpow : F -> Z -> F).
Variables (M_of f : F -> F).

(** [f(1) - (DBF * M)] *)
Definition pdrf_base (M : F) (DBF : list F) : list F :=
  map (fun d => fsub fone (fmul d M)) DBF.

(** [for _ in range(int(np.log2(pdrf_exponent))): PDRF *= PDRF] *)
Definition pdrf_squaring (pdrf_exponent : Z) (PDRF : list F) : list F :=
  Nat.iter (Z.to_nat (Z.log2 pdrf_exponent)) (map (fun p => fmul p p)) PDRF.

(** [PDRF ** pdrf_exponent] *)
Definition pdrf_general (pdrf_exponent : Z) (PDRF : list F) : list F :=
  map (fun p => fpow p pdrf_exponent) PDRF.

Definition compute_pdrf (dbf_max pdrf_scale : F) (pdrf_exponent : Z)
    (DBF DAF : list F) : list F :=
  let M := M_of dbf_max in
  let PDRF :=
    if is_power_of_two pdrf_exponent && (pdrf_exponent <? 2 ^ 16)
    then pdrf_squaring pdrf_exponent (pdrf_base M DBF)
    else pdrf_general pdrf_exponent (pdrf_base M DBF) in
  let PDRF := map (fun p => fmul p (f pdrf_scale)) PDRF in
  zip_with fadd PDRF DAF.
End PDRF.

(** ** Path downsampling (TEASAR, the loop over [paths]) *)

(** Every [k]-th element, starting with the first; [skip] elements are
    passed over before the next one is taken. *)
Fixpoint stride_aux {A : Type} (k skip : nat) (l : list A) : list A :=
  match l with
  | [] => []
  | x :: l' =>
      match skip with
      | O => x :: stride_aux k (k - 1) l'
      | S skip' => stride_aux k skip' l'
      end
  end.

Definition stride {A : Type} (k : nat) (l : list A) : list A := stride_aux k 0 l.

(** [l[0:-2:k]] as Python slices: step 0 raises; a negative step runs from
    position 0 down to the stop, which leaves position 0 of a one-element
    list and nothing otherwise. *)
Definition slice_0_m2 {A : Type} (k : Z) (l : list A) : result (list A) :=
  if k =? 0 then Raise ValueError
  else if 0 <? k then Ok (stride (Z.to_nat k) (take (length l - 2) l))
  else Ok (if (length l =? 1)%nat then l else []).

(** [l[-1:]] *)
Definition slice_last {A : Type} (l : list A) : list A := drop (length l - 1) l.

(** [np.concatenate((path[0:-2:path_downsample, :], path[-1:, :]))] *)
Definition downsample (path_downsample : Z) (p : path) : result path :=
  s ← slice_0_m2 path_downsample p; Ok (s ++ slice_last p).

(** ** Soma suppression (compute_paths, [if soma_mode]) *)

(** One row of [np.linalg.norm(anisotropy * (path - root), axis=1)], in
    binary64: the square root of the sum of the squares, added left to
    right. *)
Definition dist_to_soma_root (anisotropy : float * float * float)
    (root v : voxel) : float :=
  let '(ax, ay, az) := anisotropy in
  let '(rx, ry, rz) := root in
  let '(x, y, z) := v in
  let dx := F64.mul ax (F64.of_Z (x - rx)) in
  let dy := F64.mul ay (F64.of_Z (y - ry)) in
  let dz := F64.mul az (F64.of_Z (z - rz)) in
  F64.sqrt (F64.add (F64.add (F64.mul dx dx) (F64.mul dy dy)) (F64.mul dz dz)).

(** [np.concatenate((path[:1,:], path[dist_to_soma_root > soma_radius, :]))] *)
Definition soma_suppress (anisotropy : float * float * float) (root : voxel)
    (soma_radius : float) (p : path) : path :=
  take 1 p ++
  List.filter (fun v => fgt (dist_to_soma_root anisotropy root v) soma_radius) p.

(** ** [path_union]

    [tree] is the [defaultdict(set)], [tree_id] the dict of vertex numbers,
    [vertices] the list in numbering order and [ct] the next number. *)

Record union_state : Type := mk_union_state {
  tree : gmap voxel (gset voxel);
  tree_id : gmap voxel nat;
  vertices : list voxel;
  ct : nat
}.

Definition union_init : union_state := mk_union_state ∅ ∅ [] 0.

(** [if not v in tree_id: tree_id[v] = ct; vertices.append(v); ct += 1] *)
Definition assign_id (v : voxel) (st : union_state) : union_state :=
  match tree_id st !! v with
  | Some _ => st
  | None =>
      mk_union_state (tree st) (<[v := ct st]> (tree_id st))
                     (vertices st ++ [v]) (S (ct st))
  end.

(** The body of the inner loop for [parent = path[i]], [child = path[i+1]]. *)
Definition link (st : union_state) (pc : voxel * voxel) : union_state :=
  let '(parent, child) := pc in
  let children := default ∅ (tree st !! parent) ∪ {[child]} in
  let st := mk_union_state (<[parent := children]> (tree st))
                           (tree_id st) (vertices st) (ct st) in
  let st := assign_id parent st in
  let st := match tree st !! child with
            | Some _ => st
            | None => mk_union_state (<[child := ∅]> (tree st))
                                     (tree_id st) (vertices st) (ct st)
            end in
  assign_id child st.

(** The pairs [(path[i], path[i+1])] for [i] in [range(len(path) - 1)]. *)
Definition adjacent (p : path) : list (voxel * voxel) := zip p (tail p).

Definition all_links (paths : list path) : list (voxel * voxel) :=
  concat (map adjacent paths).

Definition build (paths : list path) : union_state :=
  fold_left (fun st p => fold_left link (adjacent p) st) paths union_init.

(** The flat uint32 arrays [npv] and [npe]. *)
Definition npv_of (vs : list voxel) : list Z :=
  flat_map (fun v : voxel => let '(x, y, z) := v in [u32 x; u32 y; u32 z]) vs.

Definition npe_of (es : list (nat * nat)) : list Z :=
  flat_map (fun e : nat * nat => [u32 (Z.of_nat e.1); u32 (Z.of_nat e.2)]) es.

Section PathUnion.
(** The order in which Python iterates over a set. *)
Variable set_order : gset voxel -> list voxel.

Definition edge_of (ids : gmap voxel nat) (parent child : voxel)
    : result (nat * nat) :=
  match ids !! parent, ids !! child with
  | Some a, Some b => Ok (a, b)
  | _, _ => Raise KeyError
  end.

(** The [while len(stack) > 0] loop; the top of the stack is the head of
    [stack], so the children pushed in order end up reversed on it. *)
Fixpoint dfs (fuel : nat) (tr : gmap voxel (gset voxel)) (ids : gmap voxel nat)
    (stack : list voxel) (edges : list (nat * nat)) : result (list (nat * nat)) :=
  match fuel with
  | O => OutOfFuel
  | S fuel' =>
      match stack with
      | [] => Ok edges
      | parent :: rest =>
          let children := set_order (default ∅ (tr !! parent)) in
          new ← mapM (edge_of ids parent) children;
          dfs fuel' tr ids (reverse children ++ rest) (edges ++ new)
      end
  end.

Definition path_union (fuel : nat) (paths : list path) : result (list Z * list Z) :=
  match paths with
  | [] => Ok ([], [])
  | p0 :: _ =>
      let st := build paths in
      match p0 with
      | [] => Raise IndexError
      | root :: _ =>
          edges ← dfs fuel (tree st) (tree_id st) [root] [];
          Ok (npv_of (vertices st), npe_of edges)
      end
  end.
End PathUnion.


(** ** Collaborators

    What [TEASAR] calls outside the module: scipy's hole filling, the [edt]
    package, the traversal engine [igneous.dijkstra], the helpers of
    [igneous.skeletontricks], numpy's powers and the iteration order of
    Python sets. [distance_field] is [euclidean_distance_field] on a source
    that lies in the mask. *)

Definition spacing : Type := float * float * float.

Record Collaborators : Type := {
  parents_t : Type;
  binary_fill_holes : mask -> mask;
  edt : mask -> spacing -> field;
  distance_field : mask -> voxel -> spacing -> field;
  parental_field : field -> voxel -> parents_t;
  path_from_parents : parents_t -> voxel -> path;
  find_target : mask -> field -> voxel;
  roll_invalidation_ball :
    mask -> field -> list voxel -> float -> float -> spacing -> Z * mask;
  roll_invalidation_cube :
    mask -> field -> path -> float -> float -> spacing -> gset voxel -> Z * mask;
  npy_power : float -> Z -> float;
  pow_1_01 : float -> float;
  set_order : gset voxel -> list voxel
}.

(** [labels[v]], false outside the array. *)
Definition in_mask (labels : mask) (v : voxel) : bool :=
  match get labels v with Ok b => b | _ => false end.

(** Position of the first true element. *)
Fixpoint first_true (i : nat) (l : list bool) : option nat :=
  match l with
  | [] => None
  | b :: l' => if b then Some i else first_true (S i) l'
  end.

(** Modelled from the spec: [igneous.skeletontricks.first_label] is not part
    of the module. Section 4.2: "Pick any in-mask voxel (deterministic:
    lexicographically smallest index with mask = true)"; "If the mask is
    empty, return no root". *)
Definition first_label (labels : mask) : option voxel :=
  match first_true 0 (data labels) with
  | Some i => Some (unravel_index i (shape labels))
  | None => None
  end.

(** Modelled from the spec: [igneous.dijkstra.euclidean_distance_field] is
    not part of the module. Section 4.1: "Precondition: mask[source] = true";
    "Fails with EmptyMask if mask[source] is false". The field computed from
    a source in the mask is the collaborator [distance_field]. *)
Definition euclidean_distance_field (E : Collaborators) (labels : mask)
    (source : voxel) (anisotropy : spacing) : result field :=
  if in_mask labels source then Ok (distance_field E labels source anisotropy)
  else Raise EmptyMask.

(** ** [compute_paths] *)

Record extraction_state : Type := mk_extraction_state {
  es_labels : mask;
  es_valid_labels : Z;
  es_invalid_vertices : gset voxel;
  es_paths : list path
}.

Section ComputePaths.
Variable E : Collaborators.
Variables (root : voxel) (DBF PDRF : field) (parents : parents_t E).
Variables (scale const : float) (anisotropy : spacing).
Variables (soma_mode : bool) (soma_radius : float).

(** The state before the loop. *)
Definition compute_paths_init (labels : mask) : extraction_state :=
  mk_extraction_state labels (count_nonzero labels)
    (if soma_mode then {[root]} else ∅) [].

(** The path of one iteration: target, walk to the root, soma suppression. *)
Definition next_path (labels : mask) : path :=
  let target := find_target E labels PDRF in
  let p := path_from_parents E parents target in
  if soma_mode then soma_suppress anisotropy root soma_radius p else p.

(** One iteration of the loop body. *)
Definition compute_paths_step (st : extraction_state) : extraction_state :=
  let p := next_path (es_labels st) in
  let '(invalidated, labels) :=
    roll_invalidation_cube E (es_labels st) DBF p scale const anisotropy
      (es_invalid_vertices st) in
  mk_extraction_state labels (es_valid_labels st - invalidated)
    (es_invalid_vertices st ∪ list_to_set p) (es_paths st ++ [p]).

(** [while valid_labels > 0] *)
Fixpoint compute_paths_loop (fuel : nat) (st : extraction_state)
    : result (list path) :=
  match fuel with
  | O => OutOfFuel
  | S fuel' =>
      if 0 <? es_valid_labels st
      then compute_paths_loop fuel' (compute_paths_step st)
      else Ok (es_paths st)
  end.

Definition compute_paths (fuel : nat) (labels : mask) : result (list path) :=
  compute_paths_loop fuel (compute_paths_init labels).
End ComputePaths.

(** ** [find_root] and [TEASAR] *)

Definition find_root (E : Collaborators) (labels : mask) (anisotropy : spacing)
    : result (option voxel) :=
  match first_label labels with
  | None => Ok None
  | Some any_voxel =>
      DAF ← euclidean_distance_field E labels any_voxel anisotropy;
      Ok (Some (find_target E labels DAF))
  end.

Record options : Type := mk_options {
  scale : float;
  const : float;
  anisotropy : spacing;
  soma_detection_threshold : float;
  pdrf_scale : float;
  pdrf_exponent : Z;
  soma_invalidation_scale : float;
  soma_invalidation_const : float;
  path_downsample : Z
}.

Definition default_options : options :=
  mk_options (F64.of_Z 10) (F64.of_Z 10) (F64.of_Z 1, F64.of_Z 1, F64.of_Z 1)
    (F64.of_Z 5000) (F64.of_Z 5000) 16
    (F64.div (F64.of_Z 1) (F64.of_Z 2)) (F64.of_Z 0) 1.

Record skeleton : Type := mk_skeleton {
  skel_vertices : list (float * float * float);
  skel_edges : list (Z * Z);
  skel_radii : list float
}.

(** [PrecomputedSkeleton()] *)
Definition empty_skeleton : skeleton := mk_skeleton [] [] [].

Fixpoint reshape3 (l : list Z) : list voxel :=
  match l with
  | x :: y :: z :: l' => (x, y, z) :: reshape3 l'
  | _ => []
  end.

Fixpoint reshape2 (l : list Z) : list (Z * Z) :=
  match l with
  | a :: b :: l' => (a, b) :: reshape2 l'
  | _ => []
  end.

(** What the first part of [TEASAR] settles: the mask and distance field
    used from then on, their maximum, the root and the soma radius. *)
Record rooted : Type := mk_rooted {
  r_labels : mask;
  r_DBF : field;
  r_dbf_max : float;
  r_soma_mode : bool;
  r_root : option voxel;
  r_soma_radius : float
}.

Definition select_root (E : Collaborators) (labels : mask) (DBF : field)
    (o : options) : result rooted :=
  dbf_max ← np_max DBF;
  let soma_mode := fgt (F64.of_f32 dbf_max) (soma_detection_threshold o) in
  if soma_mode then
    let labels := binary_fill_holes E labels in
    let DBF := edt E labels (anisotropy o) in
    dbf_max ← np_max DBF;
    i ← np_argmax DBF;
    let root := unravel_index i (shape DBF) in
    let soma_radius :=
      F64.add (F64.mul (F64.of_f32 dbf_max) (soma_invalidation_scale o))
              (soma_invalidation_const o) in
    Ok (mk_rooted labels DBF dbf_max true (Some root) soma_radius)
  else
    root ← find_root E labels (anisotropy o);
    Ok (mk_rooted labels DBF dbf_max false root F64.zero).

(** [compute_pdrf] as numpy runs it, on binary32 arrays. *)
Definition compute_pdrf32 (E : Collaborators) (dbf_max pdrf_scale : float)
    (pdrf_exponent : Z) (DBF DAF : field) : field :=
  mk_ndarray (shape DBF)
    (compute_pdrf F32.one F32.sub F32.mul F32.add (npy_power E)
       (fun x => F32.of_float (F64.div (F64.of_Z 1) (pow_1_01 E (F64.of_f32 x))))
       F32.of_float dbf_max pdrf_scale pdrf_exponent (data DBF) (data DAF)).

(** [TEASAR] from the paths on: downsampling, union, radii. *)
Definition assemble (E : Collaborators) (fuel : nat) (DBF : field)
    (path_downsample : Z) (paths : list path) : result skeleton :=
  paths ← mapM (downsample path_downsample) paths;
  '(skel_verts, skel_edges) ← path_union (set_order E) fuel paths;
  skel_radii ← mapM (get DBF) (reshape3 skel_verts);
  Ok (mk_skeleton
        (map (fun v : voxel => let '(x, y, z) := v in
                               (F32.of_Z x, F32.of_Z y, F32.of_Z z))
             (reshape3 skel_verts))
        (reshape2 skel_edges) skel_radii).

Definition TEASAR (E : Collaborators) (fuel : nat) (labels : mask) (DBF : field)
    (o : options) : result skeleton :=
  r ← select_root E labels DBF o;
  match r_root r with
  | None => Ok empty_skeleton
  | Some root =>
      let labels := r_labels r in
      let DBF := r_DBF r in
      DAF ← euclidean_distance_field E labels root (anisotropy o);
      let PDRF :=
        compute_pdrf32 E (r_dbf_max r) (pdrf_scale o) (pdrf_exponent o) DBF DAF in
      let parents := parental_field E PDRF root in
      let labels :=
        if r_soma_mode r
        then (roll_invalidation_ball E labels DBF [root]
                (soma_invalidation_scale o) (soma_invalidation_const o)
                (anisotropy o)).2
        else labels in
      paths ← compute_paths E root DBF PDRF parents (scale o) (const o)
                (anisotropy o) (r_soma_mode r) (r_soma_radius r) fuel labels;
      assemble E fuel DBF (path_downsample o) paths
  end.

(** ** [xy_path_projection]

    The function draws the paths over the outline of the object as seen
    along the z axis and saves the picture as a PNG file. The embedding
    covers the pixels: [xy_path_projection] returns the array handed to
    [Image.fromarray]; the directory and the file written are outside it. *)

(** [for a in l: b = f(b, a)], up to the first error. *)
Fixpoint foldM {A B : Type} (f : B -> A -> result B) (l : list A) (b : B) : result B :=
  match l with
  | [] => Ok b
  | a :: l' => b' ← f b a; foldM f l' b'
  end.

(** A 2D uint8 array: its shape and its elements in row-major order. *)
Record array2 : Type := mk_array2 {
  shape2 : nat * nat;
  data2 : list Z
}.

Definition get2 (a : array2) (i j : nat) : option Z :=
  data2 a !! (i * (shape2 a).2 + j)%nat.

(** The position an index [i] denotes along an axis of length [n]: negative
    indices count from the end; [None] is IndexError. *)
Definition np_index (n : nat) (i : Z) : option nat :=
  if (0 <=? i) && (i <? Z.of_nat n) then Some (Z.to_nat i)
  else if (- Z.of_nat n <=? i) && (i <? 0) then Some (Z.to_nat (i + Z.of_nat n))
  else None.

(** [labels.any(axis=-1).astype(np.uint8) * 77], of shape
    [(labels.shape[0], labels.shape[1])]. *)
Definition outline (labels : mask) : array2 :=
  let '(nx, ny, nz) := shape labels in
  mk_array2 (nx, ny)
    (map (fun i => if existsb id (take nz (drop (i * nz) (data labels)))
                   then 77 else 0)
         (seq 0 (nx * ny))).

(** [projection[coord[0], coord[1]] = 255] *)
Definition paint (projection : array2) (coord : voxel) : result array2 :=
  let '(nx, ny) := shape2 projection in
  match np_index nx coord.1.1, np_index ny coord.1.2 with
  | Some i, Some j =>
      Ok (mk_array2 (nx, ny) (<[(i * ny + j)%nat := 255]> (data2 projection)))
  | _, _ => Raise IndexError
  end.

(** [a.T] *)
Definition transpose2 (a : array2) : array2 :=
  let '(nx, ny) := shape2 a in
  mk_array2 (ny, nx)
    (flat_map (fun j => map (fun i => default 0 (data2 a !! (i * ny + j)%nat))
                            (seq 0 nx))
              (seq 0 ny)).

(** The argument [paths]: a list of paths, or one path that is not in a list. *)
Inductive paths_arg : Type :=
| one_path (p : path)
| path_list (ps : list path).

(** The array handed to [Image.fromarray]; the image made of it is then
    saved as a PNG file. The zero array [projection] plus [outline] is
    [outline]. *)
Definition xy_path_projection (paths : paths_arg) (labels : mask) : result array2 :=
  let paths := match paths with one_path p => [p] | path_list ps => ps end in
  projection ← foldM (fun projection p => foldM paint p projection)
                     paths (outline labels);
  Ok (transpose2 projection).

(** ** Notions the properties are stated with *)

(** The 26 neighbours of a voxel. *)
Definition offsets26 : list voxel :=
  List.filter (fun d : voxel => negb (bool_decide (d = (0, 0, 0))))
    (flat_map (fun dx => flat_map (fun dy => map (fun dz => (dx, dy, dz))
       [-1; 0; 1]) [-1; 0; 1]) [-1; 0; 1]).

Definition neighbours26 (v : voxel) : list voxel :=
  map (fun d : voxel => (v.1.1 + d.1.1, v.1.2 + d.1.2, v.2 + d.2)) offsets26.

(** One round of growing a set of voxels by its in-mask neighbours. *)
Definition grow (labels : mask) (seen : gset voxel) : gset voxel :=
  seen ∪ list_to_set
           (List.filter (in_mask labels) (flat_map neighbours26 (elements seen))).

(** The voxels reachable from [root] through the mask under 26-connectivity:
    as many rounds as the array has elements reach the fixed point. *)
Definition component (labels : mask) (root : voxel) : gset voxel :=
  if in_mask labels root
  then Nat.iter (length (data labels)) (grow labels) {[root]}
  else ∅.

(** A voxel occurs in a list of paths. *)
Definition occurs (paths : list path) (v : voxel) : Prop :=
  ∃ p, p ∈ paths ∧ v ∈ p.

(** Paths walked from one root along one parent field: wherever two of them
    (or one of them twice) meet a voxel, they have come the same way. *)
Definition prefix_consistent (paths : list path) : Prop :=
  ∀ p q i j v, p ∈ paths → q ∈ paths →
    p !! i = Some v → q !! j = Some v → take i p = take j q.

(** [edges] make the vertices [0 .. n-1] a tree rooted at [root], each edge
    leading from a vertex to one of its children. *)
Record rooted_tree (n root : nat) (edges : list (nat * nat)) : Prop := {
  rt_NoDup : NoDup edges;
  rt_range : ∀ a b, (a, b) ∈ edges → (a < n)%nat ∧ (b < n)%nat;
  rt_no_self_edge : ∀ a b, (a, b) ∈ edges → a ≠ b;
  rt_root_in : (root < n)%nat;
  rt_root_top : ∀ a, (a, root) ∉ edges;
  rt_parent : ∀ b, (b < n)%nat → b ≠ root → ∃ a, (a, b) ∈ edges;
  rt_parent_unique : ∀ a a' b, (a, b) ∈ edges → (a', b) ∈ edges → a = a';
  rt_levels : ∃ level : nat → nat, ∀ a b, (a, b) ∈ edges → level b = S (level a);
  rt_size : (length edges + 1 = n)%nat
}.

(** [v] sits at position [i] of some path. *)
Definition at_depth (paths : list path) (v : voxel) (i : nat) : Prop :=
  ∃ p, p ∈ paths ∧ p !! i = Some v.

(** [x] lies on some path at or after [u]. *)
Definition below (paths : list path) (u x : voxel) : Prop :=
  ∃ p i j, p ∈ paths ∧ (i ≤ j)%nat ∧ p !! i = Some u ∧ p !! j = Some x.

Definition max_length (paths : list path) : nat :=
  foldr Nat.max 0%nat (length <$> paths).

(** The number [path_union] gives a voxel, and the edge of two voxels. *)
Definition vertex_id (paths : list path) (v : voxel) : nat :=
  default 0%nat (tree_id (build paths) !! v).

Definition edge_id (paths : list path) (e : voxel * voxel) : nat * nat :=
  (vertex_id paths e.1, vertex_id paths e.2).

(** The position of a voxel in the first path that holds it. *)
Definition depth_of (paths : list path) (v : voxel) : nat :=
  match list_find (fun p : list voxel => v ∈ p) paths with
  | Some (_, p) =>
      match list_find (fun w => w = v) p with
      | Some (i, _) => i
      | None => 0%nat
      end
  | None => 0%nat
  end.

(** What the loop of [path_union] maintains after the links [L]. *)
Record links_inv (L : list (voxel * voxel)) (st : union_state) : Prop := {
  inv_tree : ∀ u v, v ∈ default ∅ (tree st !! u) ↔ (u, v) ∈ L;
  inv_ct : ct st = length (vertices st);
  inv_ids : ∀ v i, tree_id st !! v = Some i ↔ vertices st !! i = Some v;
  inv_vertices : ∀ v, v ∈ vertices st ↔ ∃ w, (v, w) ∈ L ∨ (w, v) ∈ L
}.

(** The sign bit is clear, or the value is NaN. *)
Definition not_negative (x : float) : bool :=
  match x with
  | S754_zero s | S754_infinity s | S754_finite s _ _ => negb s
  | S754_nan => true
  end.

(** [acc] with [v] put at its end, unless it holds [v] already. *)
Definition add_new (acc : list voxel) (v : voxel) : list voxel :=
  if decide (v ∈ acc) then acc else acc ++ [v].

(** The elements of a list in the order of their first occurrence. *)
Definition first_occurrences (l : list voxel) : list voxel := fold_left add_new l [].

(** The numbered voxels are those of [vertices]. *)
Definition ids_inv (st : union_state) : Prop :=
  ∀ v, is_Some (tree_id st !! v) ↔ v ∈ vertices st.

(** Both ends of every link, parent first. *)
Definition both_ends (L : list (voxel * voxel)) : list voxel :=
  flat_map (fun l : voxel * voxel => [l.1; l.2]) L.

(** The voxels [xy_path_projection] paints, in painting order. *)
Definition path_voxels (paths : paths_arg) : list voxel :=
  match paths with one_path p => p | path_list ps => concat ps end.

(** A voxel of the paths lands on pixel [(i, j)]. *)
Definition lands_on (sh : nat * nat) (coords : list voxel) (i j : nat) : Prop :=
  ∃ c, c ∈ coords ∧ np_index sh.1 c.1.1 = Some i ∧ np_index sh.2 c.1.2 = Some j.


(** ** A small instance of the collaborators

    Enough to run the model on masks whose voxels are isolated from one
    another: no holes to fill, a distance to the boundary of one voxel, a
    distance field that is 0 at the source and infinite elsewhere, the root
    as everybody's parent, and invalidation of the path's own voxels. *)

Definition set_at {A : Type} (a : ndarray A) (v : voxel) (x : A) : ndarray A :=
  match ravel (shape a) v with
  | Some i => mk_ndarray (shape a) (<[i := x]> (data a))
  | None => a
  end.

Definition clear_voxels (labels : mask) (vs : list voxel) : Z * mask :=
  fold_left (fun acc v => if in_mask acc.2 v
                          then (acc.1 + 1, set_at acc.2 v false) else acc)
            vs (0, labels).

Fixpoint masked_argmax (best : option (nat * float)) (i : nat)
    (ls : list bool) (fs : list float) : option nat :=
  match ls, fs with
  | b :: ls', x :: fs' =>
      let best' :=
        if b then
          match best with
          | None => Some (i, x)
          | Some (_, bx) => if SFltb bx x then Some (i, x) else best
          end
        else best in
      masked_argmax best' (S i) ls' fs'
  | _, _ => fst <$> best
  end.

Fixpoint f32_power (x : float) (n : nat) : float :=
  match n with
  | O => F32.one
  | S n' => F32.mul x (f32_power x n')
  end.

(** The instance, given which field values may be selected as a target. *)
Definition toy_selecting (selectable : float -> bool) : Collaborators := {|
  parents_t := voxel;
  binary_fill_holes := fun labels => labels;
  edt := fun labels _ =>
    mk_ndarray (shape labels)
      (map (fun b : bool => if b then F32.one else S754_zero false) (data labels));
  distance_field := fun labels source _ =>
    mk_ndarray (shape labels)
      (imap (fun i _ => if bool_decide (ravel (shape labels) source = Some i)
                        then S754_zero false else S754_infinity false)
            (data labels));
  parental_field := fun _ root => root;
  path_from_parents := fun root target =>
    if bool_decide (target = root) then [target] else [target; root];
  find_target := fun labels fld =>
    match masked_argmax None 0
            (zip_with (fun (b : bool) x => b && selectable x) (data labels) (data fld))
            (data fld) with
    | Some i => unravel_index i (shape labels)
    | None => (0, 0, 0)
    end;
  roll_invalidation_ball := fun labels _ vs _ _ _ => clear_voxels labels vs;
  roll_invalidation_cube := fun labels _ p _ _ _ _ => clear_voxels labels p;
  npy_power := fun x e => f32_power x (Z.to_nat e);
  pow_1_01 := fun x => x;
  set_order := elements
|}.

(** Any in-mask voxel may be the target. *)
Definition toy : Collaborators := toy_selecting (fun _ => true).

(** Target selection as section 8 of the specification describes it for a
    mask the root does not reach everywhere (scenario S6): a voxel whose
    field value is infinite is never picked. *)
Definition toy_reachable_targets : Collaborators :=
  toy_selecting (fun x => match x with
                          | S754_infinity _ | S754_nan => false
                          | _ => true
                          end).

(** A mask and a field of shape [sh] given by their voxels. *)
Definition mask_of (sh : nat * nat * nat) (vs : list voxel) : mask :=
  fold_left (fun m v => set_at m v true) vs
    (mk_ndarray sh (replicate (sh.1.1 * sh.1.2 * sh.2) false)).

Definition field_of (sh : nat * nat * nat) (vs : list (voxel * float)) : field :=
  fold_left (fun m vx => set_at m vx.1 vx.2) vs
    (mk_ndarray sh (replicate (sh.1.1 * sh.1.2 * sh.2) (S754_zero false))).

(** A second instance, whose parent field walks along the x axis: the path
    to a target runs from the root through the voxels between them. *)
Definition walk_x (root target : voxel) : path :=
  let '(rx, ry, rz) := root in
  let '(tx, _, _) := target in
  map (fun i => (if rx <=? tx then rx + Z.of_nat i else rx - Z.of_nat i, ry, rz))
      (seq 0 (S (Z.to_nat (Z.abs (tx - rx))))).

Definition toy_walking : Collaborators := {|
  parents_t := voxel;
  binary_fill_holes := binary_fill_holes toy;
  edt := edt toy;
  distance_field := distance_field toy;
  parental_field := fun _ root => root;
  path_from_parents := walk_x;
  find_target := find_target toy;
  roll_invalidation_ball := roll_invalidation_ball toy;
  roll_invalidation_cube := roll_invalidation_cube toy;
  npy_power := npy_power toy;
  pow_1_01 := pow_1_01 toy;
  set_order := elements
|}.

(** Options that put every object into soma mode (threshold 0), and the
    skeleton [TEASAR] returns with them for the two voxels (0,0,0) and
    (3,0,0) of a 4x1x1 volume. *)
Definition walk_options : options :=
  mk_options (F64.of_Z 10) (F64.of_Z 10) (F64.of_Z 1, F64.of_Z 1, F64.of_Z 1)
    (F64.of_Z 0) (F64.of_Z 5000) 16 (F64.div (F64.of_Z 1) (F64.of_Z 2)) (F64.of_Z 0) 1.

Definition walk_skeleton : skeleton :=
  mk_skeleton
    [(F32.of_Z 0, F32.of_Z 0, F32.of_Z 0); (F32.of_Z 1, F32.of_Z 0, F32.of_Z 0);
     (F32.of_Z 3, F32.of_Z 0, F32.of_Z 0)]
    [(0, 1); (1, 2)]
    [F32.one; S754_zero false; F32.one].

(** ** Proof automation *)

(** Case analysis on the comparisons of exponents and mantissas inside
    [SFcompare]. *)
Ltac compare_cases :=
  repeat match goal with
         | |- context [Pos.compare_cont Eq ?a ?b] =>
             change (Pos.compare_cont Eq a b) with (Pos.compare a b)
         | H : context [Pos.compare_cont Eq ?a ?b] |- _ =>
             change (Pos.compare_cont Eq a b) with (Pos.compare a b) in H
         end;
  repeat match goal with
         | H : context [Z.compare ?a ?b] |- _ =>
             destruct (Z.compare_spec a b); cbn in H
         | H : context [Pos.compare ?a ?b] |- _ =>
             destruct (Pos.compare_spec a b); cbn in H
         | |- context [Z.compare ?a ?b] =>
             destruct (Z.compare_spec a b); cbn
         | |- context [Pos.compare ?a ?b] =>
             destruct (Pos.compare_spec a b); cbn
         end;
  try discriminate; try reflexivity; try (exfalso; lia).

(** * Properties *)

(** A first run of [path_union]: two paths sharing their first edge. *)
Example path_union_ex1 :
  path_union elements 10 [[(0,0,0); (1,0,0); (2,0,0)]; [(0,0,0); (1,0,0); (1,1,0)]]
  = Ok ([0;0;0; 1;0;0; 2;0;0; 1;1;0], [0;1; 1;2; 1;3]).
Proof. vm_compute. reflexivity. Qed.

(** ** Soma suppression *)




(** ** Downsampling *)

(** C4 (at its failing input). A path of two vertices loses its first vertex:
    [path[0:-2:k]] is empty and only [path[-1:]] remains. *)
Theorem downsample_two_vertices (a b : voxel) : downsample 1 [a; b] = Ok [b].
Proof. reflexivity. Qed.

Lemma stride_aux_sublist {A : Type} (k : nat) (l : list A) :
  ∀ skip, stride_aux k skip l `sublist_of` l.
Proof.
  induction l as [|x l IH]; intros skip; cbn [stride_aux]; [constructor|].
  destruct skip as [|skip]; [apply sublist_skip, IH|apply sublist_cons, IH].
Qed.

(** X1. Where downsampling does what its comment says: on a path of at least
    three vertices a positive stride keeps the first and the last vertex and
    drops or keeps the others in their order. *)
Theorem downsample_keeps_ends (k : Z) (p : path) :
  0 < k → (3 ≤ length p)%nat →
  ∃ q, downsample k p = Ok q
       ∧ q `sublist_of` p ∧ head q = head p ∧ last q = last p.
Proof.
  intros Hk Hlen. unfold downsample, slice_0_m2.
  destruct (k =? 0) eqn:Hk0; [apply Z.eqb_eq in Hk0; lia|].
  destruct (0 <? k) eqn:Hkpos; [|apply Z.ltb_ge in Hkpos; lia].
  cbn [mbind result_bind]. eexists. split; [reflexivity|].
  unfold slice_last, stride. split; [|split].
  - assert (H : stride_aux (Z.to_nat k) 0 (take (length p - 2) p)
                   ++ drop (length p - 1) p
                 `sublist_of` take (length p - 2) p ++ drop (length p - 2) p).
    { apply sublist_app; [apply stride_aux_sublist|].
      replace (length p - 1)%nat with ((length p - 2) + 1)%nat by lia.
      rewrite <- drop_drop. apply sublist_drop. }
    now rewrite take_drop in H.
  - destruct p as [|a p]; [cbn in Hlen; lia|].
    cbn [length] in Hlen.
    replace (length (a :: p) - 2)%nat with (S (length p - 2)) by (cbn [length]; lia).
    reflexivity.
  - rewrite last_app.
    assert (Hlast : last (drop (length p - 1) p) = last p).
    { rewrite !last_lookup, lookup_drop, length_drop. f_equal. lia. }
    rewrite Hlast. destruct (last p) eqn:Hp; [reflexivity|].
    apply last_None in Hp. subst p. cbn in Hlen. lia.
Qed.

Lemma downsample_keeps_ends_witness :
  downsample 2 [(0, 0, 0); (1, 0, 0); (2, 0, 0); (3, 0, 0); (4, 0, 0); (5, 0, 0)]
  = Ok [(0, 0, 0); (2, 0, 0); (5, 0, 0)].
Proof.
  destruct (downsample_keeps_ends 2
              [(0, 0, 0); (1, 0, 0); (2, 0, 0); (3, 0, 0); (4, 0, 0); (5, 0, 0)])
    as (q & Hq & _); [lia|cbn; lia|].
  reflexivity.
Defined.


(** ** The single-voxel object *)

(** X4. A list holding one path of one vertex puts nothing into the tree:
    the loop over [range(path.shape[0] - 1)] has no iteration, and the
    arrays returned are empty. *)
Theorem path_union_single_vertex set_order (v : voxel) (fuel : nat) :
  set_order ∅ = [] →
  path_union set_order (S (S fuel)) [[v]] = Ok ([], []).
Proof.
  intros Hempty. unfold path_union, build. cbn [fold_left adjacent tail zip_with].
  cbn [dfs union_init tree tree_id vertices]. rewrite lookup_empty. cbn [default].
  rewrite Hempty. reflexivity.
Qed.

Lemma path_union_single_vertex_witness :
  path_union elements 2 [[(1, 2, 3)]] = Ok ([], []).
Proof. exact (path_union_single_vertex elements (1, 2, 3) 0 elements_empty). Defined.

(** C3 (at its failing input). The mask with the single voxel (5,5,5) and
    DBF 1 there, default options: the one extracted path is [(5,5,5)],
    downsampling leaves it as it is, [path_union] returns no vertex and no
    edge for it, and [TEASAR] returns the skeleton without vertices, edges
    and radii. *)
Theorem single_voxel_skeleton_is_empty :
  let labels := mask_of (6, 6, 6)%nat [(5, 5, 5)] in
  let DBF := field_of (6, 6, 6)%nat [((5, 5, 5), F32.one)] in
  (r ← select_root toy labels DBF default_options; Ok (r_soma_mode r, r_root r))
    = Ok (false, Some (5, 5, 5))
  ∧ next_path toy (5, 5, 5) DBF (5, 5, 5) (anisotropy default_options) false
      F64.zero labels = [(5, 5, 5)]
  ∧ downsample 1 [(5, 5, 5)] = Ok [(5, 5, 5)]
  ∧ path_union elements 2 [[(5, 5, 5)]] = Ok ([], [])
  ∧ TEASAR toy 3 labels DBF default_options = Ok empty_skeleton.
Proof. vm_compute. repeat split; reflexivity. Qed.

(** ** The order of floats *)

Lemma SFleb_trans a b c : SFleb a b = true → SFleb b c = true → SFleb a c = true.
Proof.
  unfold SFleb, SFcompare.
  destruct a as [[]|[]| |[] ma ea], b as [[]|[]| |[] mb eb], c as [[]|[]| |[] mc ec];
    cbn; intros Hab Hbc; try discriminate; try reflexivity; compare_cases.
Qed.

Lemma SFleb_total a b :
  a ≠ S754_nan → b ≠ S754_nan → SFleb a b = false → SFleb b a = true.
Proof.
  unfold SFleb, SFcompare.
  destruct a as [[]|[]| |[] ma ea], b as [[]|[]| |[] mb eb];
    cbn; intros Ha Hb Hab; try discriminate; try reflexivity; try congruence;
    compare_cases.
Qed.

Lemma SFleb_refl a : a ≠ S754_nan → SFleb a a = true.
Proof.
  unfold SFleb, SFcompare.
  destruct a as [[]|[]| |[] ma ea]; cbn; intros Ha; try reflexivity; try congruence;
    rewrite Z.compare_refl; change (Pos.compare_cont Eq ma ma) with (Pos.compare ma ma);
    now rewrite Pos.compare_refl.
Qed.

Lemma SFleb_not_ltb a b : SFleb a b = true → SFltb b a = false.
Proof.
  unfold SFleb, SFltb, SFcompare.
  destruct a as [[]|[]| |[] ma ea], b as [[]|[]| |[] mb eb];
    cbn; intros Hab; try discriminate; try reflexivity; compare_cases.
Qed.

Lemma SFltb_nan_l x : SFltb S754_nan x = false.
Proof. reflexivity. Qed.

(** [argmax_from] returns the position of an element that no element of the
    list exceeds. *)
Lemma argmax_from_max (xs : list float) : ∀ (best : float) (bi i : nat) (pre : list float),
  length pre = i → (pre ++ xs) !! bi = Some best →
  (best ≠ S754_nan → ∀ y, y ∈ pre → SFleb y best = true) →
  ∃ b, (pre ++ xs) !! argmax_from best bi i xs = Some b
       ∧ ∀ x, x ∈ pre ++ xs → fgt x b = false.
Proof.
  induction xs as [|x xs IH]; intros best bi i pre Hlen Hbest Hinv.
  - exists best. split; [now destruct best|].
    intros y Hy. rewrite app_nil_r in Hy. unfold fgt.
    destruct (is_nan best) eqn:Hnan; [now destruct best|].
    apply SFleb_not_ltb. apply Hinv; [|exact Hy]. intros ->. discriminate.
  - cbn [argmax_from]. destruct (is_nan best) eqn:Hnan.
    { exists best. split; [exact Hbest|]. intros y _. now destruct best. }
    assert (Hbest_ok : best ≠ S754_nan) by (intros ->; discriminate).
    replace (pre ++ x :: xs) with ((pre ++ [x]) ++ xs) in * by now rewrite <- app_assoc.
    destruct (SFleb x best) eqn:Hle; cbn [negb].
    + apply IH.
      * rewrite length_app. cbn [length]. lia.
      * exact Hbest.
      * intros _ y Hy. apply elem_of_app in Hy as [Hy|Hy]; [now apply Hinv|].
        apply list_elem_of_singleton in Hy as ->. exact Hle.
    + apply IH.
      * rewrite length_app. cbn [length]. lia.
      * rewrite <- Hlen. rewrite <- app_assoc. apply list_lookup_middle. reflexivity.
      * intros Hx y Hy. apply elem_of_app in Hy as [Hy|Hy].
        -- apply (SFleb_trans y best x); [now apply Hinv|].
           now apply SFleb_total.
        -- apply list_elem_of_singleton in Hy as ->. now apply SFleb_refl.
Qed.

Lemma np_argmax_max (a : field) (i : nat) :
  np_argmax a = Ok i →
  ∃ b, data a !! i = Some b ∧ ∀ x, x ∈ data a → fgt x b = false.
Proof.
  unfold np_argmax. destruct (data a) as [|x xs]; [discriminate|]. intros [= <-].
  apply (argmax_from_max xs x 0%nat 1%nat [x]); [reflexivity|reflexivity|].
  intros Hx y Hy. apply list_elem_of_singleton in Hy as ->. now apply SFleb_refl.
Qed.

(** ** Root selection *)

Lemma first_true_none (l : list bool) (i : nat) :
  (∀ b, b ∈ l → b = false) → first_true i l = None.
Proof.
  revert i. induction l as [|b l IH]; intros i Hall; [reflexivity|].
  cbn [first_true]. rewrite (Hall b) by apply list_elem_of_here.
  apply IH. intros b' Hb'. apply Hall. now apply list_elem_of_further.
Qed.

Lemma find_root_empty_mask E (labels : mask) anisotropy :
  (∀ b, b ∈ data labels → b = false) →
  find_root E labels anisotropy = Ok None.
Proof.
  intros Hall. unfold find_root, first_label.
  now rewrite (first_true_none _ _ Hall).
Qed.





(** ** The mask without a true voxel *)

Lemma select_root_empty_mask E (labels : mask) (DBF : field) (o : options) m :
  np_max DBF = Ok m →
  fgt (F64.of_f32 m) (soma_detection_threshold o) = false →
  (∀ b, b ∈ data labels → b = false) →
  select_root E labels DBF o = Ok (mk_rooted labels DBF m false None F64.zero).
Proof.
  intros Hmax Hsoma Hall. unfold select_root. rewrite Hmax.
  cbn [mbind result_bind]. rewrite Hsoma.
  now rewrite (find_root_empty_mask E labels (anisotropy o) Hall).
Qed.

(** C8, as amended. On an input of non-zero size whose mask has no true
    voxel and whose max(DBF) does not exceed [soma_detection_threshold] (so
    that the root comes from [find_root]), [TEASAR] returns the empty
    skeleton and raises nothing, whatever the other options and the fuel. *)
Theorem empty_mask_gives_empty_skeleton
    (E : Collaborators) (fuel : nat) (labels : mask) (DBF : field) (o : options)
    (m : float) :
  np_max DBF = Ok m →
  fgt (F64.of_f32 m) (soma_detection_threshold o) = false →
  (∀ b, b ∈ data labels → b = false) →
  TEASAR E fuel labels DBF o = Ok empty_skeleton.
Proof.
  intros Hmax Hsoma Hall. unfold TEASAR.
  now rewrite (select_root_empty_mask E labels DBF o m Hmax Hsoma Hall).
Qed.

Lemma empty_mask_gives_empty_skeleton_witness :
  TEASAR toy 0 (mask_of (2, 2, 2)%nat []) (field_of (2, 2, 2)%nat [])
    default_options = Ok empty_skeleton.
Proof.
  apply (empty_mask_gives_empty_skeleton toy 0 (mask_of (2, 2, 2)%nat [])
           (field_of (2, 2, 2)%nat []) default_options (S754_zero false)).
  - vm_compute. reflexivity.
  - vm_compute. reflexivity.
  - intros b Hb. vm_compute in Hb.
    repeat (apply elem_of_cons in Hb as [Hb|Hb]; [exact Hb|]).
    now apply elem_of_nil in Hb.
Defined.

(** C8, where it fails. With a negative [soma_detection_threshold] the
    all-false mask with an all-zero DBF is in soma mode: the root is the
    arg-max voxel (0,0,0), never "no root", and the distance field is asked
    for a source outside the mask. A zero-size input fails in [np.max]. *)
Lemma empty_mask_in_soma_mode_or_of_zero_size :
  let o := mk_options (F64.of_Z 10) (F64.of_Z 10)
             (F64.of_Z 1, F64.of_Z 1, F64.of_Z 1) (F64.of_Z (-1)) (F64.of_Z 5000)
             16 (F64.div (F64.of_Z 1) (F64.of_Z 2)) (F64.of_Z 0) 1 in
  (count_nonzero (mask_of (1, 1, 1)%nat []) = 0
   ∧ (r ← select_root toy (mask_of (1, 1, 1)%nat []) (field_of (1, 1, 1)%nat []) o;
      Ok (r_soma_mode r, r_root r)) = Ok (true, Some (0, 0, 0))
   ∧ TEASAR toy 1 (mask_of (1, 1, 1)%nat []) (field_of (1, 1, 1)%nat []) o
     = Raise EmptyMask)
  ∧ (count_nonzero (mk_ndarray (0, 0, 0)%nat []) = 0
     ∧ TEASAR toy 1 (mk_ndarray (0, 0, 0)%nat []) (mk_ndarray (0, 0, 0)%nat [])
         default_options = Raise ValueError).
Proof. vm_compute. repeat split; reflexivity. Qed.

(** ** Options are not validated *)


















(** ** Termination of the extraction loop *)

Section ExtractionLoop.
Variable E : Collaborators.
Variables (root : voxel) (DBF PDRF : field) (parents : parents_t E).
Variables (scale const : float) (anisotropy : spacing).
Variables (soma_mode : bool) (soma_radius : float).

Local Abbreviation step :=
  (compute_paths_step E root DBF PDRF parents scale const anisotropy
     soma_mode soma_radius).
Local Abbreviation loop :=
  (compute_paths_loop E root DBF PDRF parents scale const anisotropy
     soma_mode soma_radius).

Lemma step_appends_one_path st :
  length (es_paths (step st)) = S (length (es_paths st)).
Proof.
  unfold compute_paths_step.
  destruct (roll_invalidation_cube _ _ _ _ _ _ _ _) as [invalidated labels'].
  cbn [es_paths]. rewrite length_app. cbn [length]. lia.
Qed.

(** The loop has no error exit. *)
Lemma compute_paths_loop_never_raises fuel st e : loop fuel st ≠ Raise e.
Proof.
  revert st.
  induction fuel as [|fuel IH]; intros st; cbn [compute_paths_loop].
  - discriminate.
  - destruct (0 <? _); [apply IH|discriminate].
Qed.

(** If the counter drops in every iteration that runs, the loop returns
    before the fuel is used up, with at most as many paths as the counter
    allowed. *)
Lemma compute_paths_loop_returns fuel st :
  (∀ n, (n < fuel)%nat → 0 < es_valid_labels (Nat.iter n step st) →
        es_valid_labels (Nat.iter (S n) step st)
        < es_valid_labels (Nat.iter n step st)) →
  (Z.to_nat (es_valid_labels st) < fuel)%nat →
  ∃ paths, loop fuel st = Ok paths
           ∧ Z.of_nat (length paths)
             ≤ Z.of_nat (length (es_paths st)) + Z.max 0 (es_valid_labels st).
Proof.
  revert st.
  induction fuel as [|fuel IH]; intros st Hdrop Hfuel; [lia|].
  cbn [compute_paths_loop]. destruct (0 <? es_valid_labels st) eqn:Hpos.
  - apply Z.ltb_lt in Hpos.
    pose proof (Hdrop 0%nat ltac:(lia) Hpos) as Hfirst.
    change (es_valid_labels (step st) < es_valid_labels st) in Hfirst.
    destruct (IH (step st)) as (paths & Hrun & Hlen).
    + intros n Hn. rewrite <- !Nat.iter_succ_r. apply Hdrop. lia.
    + lia.
    + exists paths. split; [exact Hrun|].
      rewrite step_appends_one_path in Hlen. lia.
  - apply Z.ltb_ge in Hpos. exists (es_paths st). split; [reflexivity|lia].
Qed.

(** If some property of the state keeps the counter positive and survives
    every iteration, the loop uses up any fuel. *)
Lemma compute_paths_loop_stuck (Inv : extraction_state → Prop) fuel st :
  (∀ st', Inv st' → 0 < es_valid_labels st' ∧ Inv (step st')) →
  Inv st → loop fuel st = OutOfFuel.
Proof.
  intros Hkeep. revert st.
  induction fuel as [|fuel IH]; intros st Hst; [reflexivity|].
  cbn [compute_paths_loop]. destruct (Hkeep st Hst) as [Hpos Hnext].
  destruct (0 <? es_valid_labels st) eqn:Hlt; [|apply Z.ltb_ge in Hlt; lia].
  now apply IH.
Qed.
End ExtractionLoop.

(** C1, as amended. [compute_paths] starts its counter at the number of all
    true voxels of the mask, reachable from the root or not, and has no error
    exit; it returns, with at most that many paths, as soon as the fuel
    exceeds that number, provided every iteration that runs lowers the
    counter (its [roll_invalidation_cube] reports at least one cleared
    voxel). *)
Theorem compute_paths_returns_when_every_iteration_clears
    (E : Collaborators) (root : voxel) (DBF PDRF : field) (parents : parents_t E)
    (scale const : float) (anisotropy : spacing) (soma_mode : bool)
    (soma_radius : float) (labels : mask) (fuel : nat) :
  let step := compute_paths_step E root DBF PDRF parents scale const anisotropy
                soma_mode soma_radius in
  let init := compute_paths_init root soma_mode labels in
  (∀ n, (n < fuel)%nat → 0 < es_valid_labels (Nat.iter n step init) →
        es_valid_labels (Nat.iter (S n) step init)
        < es_valid_labels (Nat.iter n step init)) →
  (Z.to_nat (count_nonzero labels) < fuel)%nat →
  es_valid_labels init = count_nonzero labels
  ∧ ∃ paths,
      compute_paths E root DBF PDRF parents scale const anisotropy soma_mode
        soma_radius fuel labels = Ok paths
      ∧ Z.of_nat (length paths) ≤ count_nonzero labels.
Proof.
  intros step init Hdrop Hfuel. split; [reflexivity|].
  destruct (compute_paths_loop_returns E root DBF PDRF parents scale const
              anisotropy soma_mode soma_radius fuel init Hdrop Hfuel)
    as (paths & Hrun & Hlen).
  exists paths. split; [exact Hrun|].
  unfold init, compute_paths_init in Hlen. cbn [es_paths es_valid_labels length] in Hlen.
  unfold count_nonzero in *. lia.
Qed.

Lemma compute_paths_returns_when_every_iteration_clears_witness :
  ∃ paths,
    compute_paths toy (0, 0, 0) (field_of (3, 1, 1)%nat [])
      (field_of (3, 1, 1)%nat [((2, 0, 0), F32.one)]) (0, 0, 0)
      (F64.of_Z 10) (F64.of_Z 10) (F64.of_Z 1, F64.of_Z 1, F64.of_Z 1)
      false F64.zero 4 (mask_of (3, 1, 1)%nat [(0, 0, 0); (1, 0, 0); (2, 0, 0)])
    = Ok paths ∧ Z.of_nat (length paths) ≤ 3.
Proof.
  destruct (compute_paths_returns_when_every_iteration_clears toy (0, 0, 0)
              (field_of (3, 1, 1)%nat [])
              (field_of (3, 1, 1)%nat [((2, 0, 0), F32.one)]) (0, 0, 0)
              (F64.of_Z 10) (F64.of_Z 10) (F64.of_Z 1, F64.of_Z 1, F64.of_Z 1)
              false F64.zero
              (mask_of (3, 1, 1)%nat [(0, 0, 0); (1, 0, 0); (2, 0, 0)]) 4)
    as [_ (paths & Hrun & Hlen)].
  - intros n Hn. destruct n as [|[|[|[|n]]]]; [| | | |lia];
      vm_compute; intros; congruence || lia.
  - vm_compute. lia.
  - exists paths. vm_compute in Hrun. injection Hrun as <-. split.
    + vm_compute. reflexivity.
    + vm_compute. discriminate.
Defined.

(** On the mask of two voxels that do not touch, with targets selected among
    the voxels of finite PDRF only: after the first iteration has cleared the
    root, every further iteration leaves the mask and the counter as they
    are. *)
Lemma unreachable_voxel_stays
    (DBF : field) (scale const : float) (anisotropy : spacing) (st : extraction_state) :
  let PDRF := field_of (3, 1, 1)%nat [((2, 0, 0), S754_infinity false)] in
  es_labels st = mask_of (3, 1, 1)%nat [(2, 0, 0)] →
  es_valid_labels st = 1 →
  es_labels (compute_paths_step toy_reachable_targets (0, 0, 0) DBF PDRF (0, 0, 0)
               scale const anisotropy false F64.zero st)
    = mask_of (3, 1, 1)%nat [(2, 0, 0)]
  ∧ es_valid_labels
      (compute_paths_step toy_reachable_targets (0, 0, 0) DBF PDRF (0, 0, 0)
         scale const anisotropy false F64.zero st) = 1.
Proof.
  destruct st as [labels valid invalid paths]. cbn [es_labels es_valid_labels].
  intros -> ->. unfold compute_paths_step. cbn [es_labels es_valid_labels
    es_invalid_vertices es_paths roll_invalidation_cube toy_reachable_targets
    toy_selecting].
  vm_compute. split; reflexivity.
Qed.

(** C1, where it fails. Two voxels that do not touch: the second is in the
    mask and outside the root's component; the counter starts at 2 although
    the component of the root has 1 voxel, and no run of [compute_paths]
    raises an error. With targets selected among the voxels of finite PDRF
    only, the loop uses up any fuel. *)
Lemma disconnected_mask_counts_unreachable_voxels :
  let labels := mask_of (3, 1, 1)%nat [(0, 0, 0); (2, 0, 0)] in
  let root : voxel := (0, 0, 0) in
  in_mask labels (2, 0, 0) = true
  ∧ elements (component labels root) = [(0, 0, 0)]
  ∧ es_valid_labels (compute_paths_init root false labels) = 2
  ∧ es_valid_labels (compute_paths_init root false labels)
    ≠ Z.of_nat (size (component labels root))
  ∧ (∀ (E : Collaborators) DBF PDRF parents scale const anisotropy soma_mode
       soma_radius fuel e,
       compute_paths E root DBF PDRF parents scale const anisotropy soma_mode
         soma_radius fuel labels ≠ Raise e)
  ∧ (∀ DBF scale const anisotropy fuel,
       compute_paths toy_reachable_targets root DBF
         (field_of (3, 1, 1)%nat [((2, 0, 0), S754_infinity false)]) root
         scale const anisotropy false F64.zero fuel labels = OutOfFuel).
Proof.
  cbv zeta. split; [vm_compute; reflexivity|].
  split; [vm_compute; reflexivity|].
  split; [vm_compute; reflexivity|].
  split; [vm_compute; discriminate|].
  split; [intros; apply compute_paths_loop_never_raises|].
  intros DBF scale const anisotropy fuel. unfold compute_paths.
  destruct fuel as [|fuel]; [reflexivity|]. cbn [compute_paths_loop].
  change (0 <? es_valid_labels
                 (compute_paths_init (0, 0, 0) false
                    (mask_of (3, 1, 1)%nat [(0, 0, 0); (2, 0, 0)]))) with true.
  cbn match.
  apply (compute_paths_loop_stuck _ _ _ _ _ _ _ _ _ _
           (fun st => es_labels st = mask_of (3, 1, 1)%nat [(2, 0, 0)]
                      ∧ es_valid_labels st = 1)).
  - intros st [Hl Hv]. split; [lia|]. now apply unreachable_voxel_stays.
  - vm_compute. split; reflexivity.
Qed.

(** ** The two branches of [compute_pdrf] *)

Lemma is_power_of_two_pow2 (k : Z) : 0 ≤ k → is_power_of_two (2 ^ k) = true.
Proof.
  intros Hk. unfold is_power_of_two.
  assert (0 < 2 ^ k) by (apply Z.pow_pos_nonneg; lia).
  apply andb_true_iff. split.
  - apply negb_true_iff, Z.eqb_neq. lia.
  - apply Z.eqb_eq.
    replace (2 ^ k - 1) with (Z.ones k) by (rewrite Z.ones_equiv; lia).
    rewrite Z.land_ones by exact Hk. apply Z.mod_same. lia.
Qed.

(** The converse: a positive number that passes the test is a power of two. *)
Lemma is_power_of_two_zero : is_power_of_two 0 = false.
Proof. reflexivity. Qed.

(** X3. [is_power_of_two] accepts the powers of two only. *)
Theorem is_power_of_two_only_powers (n : Z) :
  is_power_of_two n = true → ∃ k, 0 ≤ k ∧ n = 2 ^ k.
Proof.
  unfold is_power_of_two. intros H. apply andb_true_iff in H as [Hnz Hland].
  apply negb_true_iff, Z.eqb_neq in Hnz. apply Z.eqb_eq in Hland.
  destruct (Z.lt_ge_cases n 0) as [Hneg|Hpos].
  - exfalso. assert (Hlt : Z.land n (n - 1) < 0) by (apply Z.land_neg; lia). lia.
  - assert (Hn : 0 < n) by lia. exists (Z.log2 n).
    split; [apply Z.log2_nonneg|].
    destruct (Z.log2_spec n Hn) as [Hlo Hhi].
    destruct (Z.eq_dec n (2 ^ Z.log2 n)) as [Heq|Hne]; [exact Heq|exfalso].
    assert (H1 : 0 < 2 ^ Z.log2 n) by (apply Z.pow_pos_nonneg; [lia|apply Z.log2_nonneg]).
    assert (Hlog : Z.log2 (n - 1) = Z.log2 n).
    { apply Z.log2_unique; [apply Z.log2_nonneg|lia]. }
    assert (Hbit : Z.testbit (Z.land n (n - 1)) (Z.log2 n) = true).
    { rewrite Z.land_spec, (Z.bit_log2 n) by exact Hn.
      rewrite <- Hlog. rewrite Z.bit_log2 by lia. reflexivity. }
    rewrite Hland in Hbit. now rewrite Z.bits_0 in Hbit.
Qed.

Lemma is_power_of_two_only_powers_witness : ∃ k, 0 ≤ k ∧ 16 = 2 ^ k.
Proof. exact (is_power_of_two_only_powers 16 eq_refl). Defined.

Section ExactArithmetic.
Context {F : Type}.
Variables (fmul : F → F → F) (fpow : F → Z → F).

(** What makes [fpow] the power of [fmul]: the first power is the number
    itself, and doubling the exponent squares the value. *)
Hypothesis fpow_1 : ∀ x, fpow x 1 = x.
Hypothesis fpow_double : ∀ x n, 0 < n → fpow x (2 * n) = fmul (fpow x n) (fpow x n).


End ExactArithmetic.



(** ** The loop of [path_union] that builds the tree *)

Lemma build_all_links_gen (paths : list path) (st : union_state) :
  fold_left (fun st p => fold_left link (adjacent p) st) paths st
  = fold_left link (all_links paths) st.
Proof.
  revert st. induction paths as [|p paths IH]; intros st; [reflexivity|].
  unfold all_links. cbn [fold_left map concat]. rewrite fold_left_app. apply IH.
Qed.

Lemma elem_of_adjacent (p : path) (u v : voxel) :
  (u, v) ∈ adjacent p ↔ ∃ i, p !! i = Some u ∧ p !! S i = Some v.
Proof.
  unfold adjacent. rewrite list_elem_of_lookup. split.
  - intros [i Hi]. exists i. apply lookup_zip_with_Some in Hi as (x & y & Heq & Hx & Hy).
    injection Heq as -> ->. rewrite lookup_tail in Hy. auto.
  - intros (i & Hu & Hv). exists i. apply lookup_zip_with_Some.
    exists u, v. rewrite lookup_tail. auto.
Qed.

Lemma elem_of_all_links (paths : list path) (u v : voxel) :
  (u, v) ∈ all_links paths ↔ ∃ p, p ∈ paths ∧ (u, v) ∈ adjacent p.
Proof.
  unfold all_links. induction paths as [|q paths IH]; cbn [map concat].
  - split; [intros H; now apply elem_of_nil in H|].
    intros (p & Hp & _). now apply elem_of_nil in Hp.
  - rewrite elem_of_app, IH. split.
    + intros [H|(p & Hp & H)]; [exists q|exists p]; split; auto.
      * apply list_elem_of_here.
      * now apply list_elem_of_further.
    + intros (p & Hp & H). apply elem_of_cons in Hp as [->|Hp]; eauto.
Qed.


Lemma links_inv_init : links_inv [] union_init.
Proof.
  split; cbn [union_init tree tree_id vertices ct].
  - intros u v. rewrite lookup_empty. cbn [default]. set_solver.
  - reflexivity.
  - intros v i. rewrite lookup_empty, lookup_nil. split; discriminate.
  - intros v. split; [intros H; now apply elem_of_nil in H|].
    intros (w & [H|H]); now apply elem_of_nil in H.
Qed.

Lemma assign_id_tree v st : tree (assign_id v st) = tree st.
Proof. unfold assign_id. now destruct (tree_id st !! v). Qed.

Lemma assign_id_ids v st :
  ct st = length (vertices st) →
  (∀ w i, tree_id st !! w = Some i ↔ vertices st !! i = Some w) →
  ct (assign_id v st) = length (vertices (assign_id v st))
  ∧ (∀ w i, tree_id (assign_id v st) !! w = Some i
            ↔ vertices (assign_id v st) !! i = Some w)
  ∧ (∀ w, w ∈ vertices (assign_id v st) ↔ w ∈ vertices st ∨ w = v).
Proof.
  intros Hct Hids. unfold assign_id. destruct (tree_id st !! v) as [k|] eqn:Hv.
  - split; [exact Hct|]. split; [exact Hids|].
    intros w. split; [auto|]. intros [H| ->]; [exact H|].
    apply list_elem_of_lookup. exists k. now apply Hids.
  - cbn [tree_id vertices ct]. split; [rewrite length_app; cbn [length]; lia|]. split.
    + intros w i. destruct (decide (w = v)) as [->|Hne].
      * rewrite lookup_insert_eq. split.
        -- intros [= <-]. rewrite Hct. now rewrite list_lookup_middle.
        -- intros Hi. f_equal.
           destruct (decide (i < length (vertices st))%nat) as [Hlt|Hge].
           ++ rewrite lookup_app_l in Hi by exact Hlt. apply Hids in Hi. congruence.
           ++ apply lookup_lt_Some in Hi as Hlen. rewrite length_app in Hlen.
              cbn [length] in Hlen. lia.
      * rewrite lookup_insert_ne by congruence. rewrite Hids. split.
        -- intros Hi. rewrite lookup_app_l; [exact Hi|]. now apply lookup_lt_Some in Hi.
        -- intros Hi. destruct (decide (i < length (vertices st))%nat) as [Hlt|Hge].
           ++ now rewrite lookup_app_l in Hi by exact Hlt.
           ++ rewrite lookup_app_r in Hi by lia.
              destruct (i - length (vertices st))%nat as [|[|k]]; cbn in Hi; congruence.
    + intros w. rewrite elem_of_app, list_elem_of_singleton. tauto.
Qed.

Lemma links_inv_link L st pc :
  links_inv L st → links_inv (L ++ [pc]) (link st pc).
Proof.
  intros [Htree Hct Hids Hvs]. destruct pc as [parent child]. unfold link.
  set (st1 := mk_union_state _ (tree_id st) (vertices st) (ct st)).
  destruct (assign_id_ids parent st1 Hct Hids) as (Hct2 & Hids2 & Hvs2).
  set (st2 := assign_id parent st1) in *.
  set (st3 := match tree st2 !! child with
              | Some _ => st2
              | None => mk_union_state (<[child := ∅]> (tree st2)) (tree_id st2)
                                       (vertices st2) (ct st2)
              end).
  assert (Hsame : tree_id st3 = tree_id st2 ∧ vertices st3 = vertices st2
                  ∧ ct st3 = ct st2).
  { unfold st3. now destruct (tree st2 !! child). }
  destruct Hsame as (Hid3 & Hv3 & Hc3).
  assert (Htree3 : ∀ u v, v ∈ default ∅ (tree st3 !! u)
                          ↔ (u, v) ∈ L ∨ (u, v) = (parent, child)).
  { intros u v.
    assert (Htree2 : v ∈ default ∅ (tree st2 !! u)
                     ↔ (u, v) ∈ L ∨ (u, v) = (parent, child)).
    { unfold st2. rewrite assign_id_tree. unfold st1. cbn [tree].
      destruct (decide (u = parent)) as [->|Hne].
      - rewrite lookup_insert_eq. simpl. rewrite elem_of_union, Htree.
        rewrite elem_of_singleton. split; intros [H|H]; auto; [right; congruence|].
        right. congruence.
      - rewrite lookup_insert_ne by congruence. rewrite Htree.
        split; [auto|]. intros [H|H]; [exact H|congruence]. }
    rewrite <- Htree2. unfold st3.
    destruct (tree st2 !! child) as [s|] eqn:Hchild; [reflexivity|]. cbn [tree].
    destruct (decide (u = child)) as [->|Hne].
    - rewrite lookup_insert_eq, Hchild. reflexivity.
    - now rewrite lookup_insert_ne by congruence. }
  assert (Hct3 : ct st3 = length (vertices st3)) by (rewrite Hc3, Hv3; exact Hct2).
  assert (Hids3 : ∀ w i, tree_id st3 !! w = Some i ↔ vertices st3 !! i = Some w).
  { intros w i. rewrite Hid3, Hv3. apply Hids2. }
  destruct (assign_id_ids child st3 Hct3 Hids3) as (Hct4 & Hids4 & Hvs4).
  split.
  - intros u v. rewrite assign_id_tree, Htree3, elem_of_app, list_elem_of_singleton.
    reflexivity.
  - exact Hct4.
  - exact Hids4.
  - intros v. rewrite Hvs4, Hv3, Hvs2. unfold st1 at 1. cbn [vertices]. rewrite Hvs.
    split.
    + intros [[(w & Hw)| ->]| ->].
      * exists w. rewrite !elem_of_app. tauto.
      * exists child. left. rewrite elem_of_app, list_elem_of_singleton. auto.
      * exists parent. right. rewrite elem_of_app, list_elem_of_singleton. auto.
    + intros (w & Hw). rewrite !elem_of_app, !list_elem_of_singleton in Hw.
      destruct Hw as [[Hw|Hw]|[Hw|Hw]].
      * left. left. eauto.
      * left. right. congruence.
      * left. left. eauto.
      * right. congruence.
Qed.

Lemma links_inv_fold L1 : ∀ L0 st,
  links_inv L0 st → links_inv (L0 ++ L1) (fold_left link L1 st).
Proof.
  induction L1 as [|pc L1 IH]; intros L0 st Hinv; cbn [fold_left].
  - now rewrite app_nil_r.
  - replace (L0 ++ pc :: L1) with ((L0 ++ [pc]) ++ L1) by now rewrite <- app_assoc.
    apply IH. now apply links_inv_link.
Qed.

Lemma links_inv_build (paths : list path) : links_inv (all_links paths) (build paths).
Proof.
  unfold build. rewrite build_all_links_gen.
  apply (links_inv_fold (all_links paths) [] union_init links_inv_init).
Qed.

Lemma links_inv_NoDup L st : links_inv L st → NoDup (vertices st).
Proof.
  intros Hinv. apply NoDup_alt. intros i j v Hi Hj.
  apply (inv_ids _ _ Hinv) in Hi, Hj. congruence.
Qed.

(** ** [path_union] on paths that agree on the way to every voxel *)

Section ConsistentPaths.
Variable paths : list path.
Variable r : voxel.
Hypothesis paths_start_at_root : ∀ p, p ∈ paths → head p = Some r.
Hypothesis paths_consistent : prefix_consistent paths.



Lemma same_position p q i j v :
  p ∈ paths → q ∈ paths → p !! i = Some v → q !! j = Some v → i = j.
Proof.
  intros Hp Hq Hi Hj.
  pose proof (paths_consistent p q i j v Hp Hq Hi Hj) as Heq.
  apply (f_equal length) in Heq. rewrite !length_take in Heq.
  apply lookup_lt_Some in Hi, Hj. lia.
Qed.

Lemma same_way p q i j v :
  p ∈ paths → q ∈ paths → p !! j = Some v → q !! j = Some v → (i < j)%nat →
  p !! i = q !! i.
Proof.
  intros Hp Hq Hpj Hqj Hlt.
  pose proof (paths_consistent p q j j v Hp Hq Hpj Hqj) as Heq.
  rewrite <- (lookup_take_lt p j i) by exact Hlt.
  rewrite <- (lookup_take_lt q j i) by exact Hlt. now rewrite Heq.
Qed.

Lemma depth_functional v i j : at_depth paths v i → at_depth paths v j → i = j.
Proof. intros (p & Hp & Hi) (q & Hq & Hj). exact (same_position p q i j v Hp Hq Hi Hj). Qed.

Lemma link_positions u v :
  (u, v) ∈ all_links paths ↔
  ∃ p i, p ∈ paths ∧ p !! i = Some u ∧ p !! S i = Some v.
Proof.
  rewrite elem_of_all_links. split.
  - intros (p & Hp & Hadj). apply elem_of_adjacent in Hadj as (i & Hu & Hv). eauto.
  - intros (p & i & Hp & Hu & Hv). exists p. split; [exact Hp|].
    apply elem_of_adjacent. eauto.
Qed.

Lemma link_depth u v i :
  (u, v) ∈ all_links paths → at_depth paths u i → at_depth paths v (S i).
Proof.
  intros Hl Hu. apply link_positions in Hl as (p & k & Hp & Hpu & Hpv).
  assert (i = k) as -> by (eapply depth_functional; [exact Hu|exists p; eauto]).
  exists p. eauto.
Qed.

Lemma parent_unique u u' v :
  (u, v) ∈ all_links paths → (u', v) ∈ all_links paths → u = u'.
Proof.
  intros Hl Hl'.
  apply link_positions in Hl as (p & i & Hp & Hpu & Hpv).
  apply link_positions in Hl' as (q & j & Hq & Hqu & Hqv).
  assert (S i = S j) as [= <-] by exact (same_position p q _ _ v Hp Hq Hpv Hqv).
  pose proof (same_way p q i (S i) v Hp Hq Hpv Hqv ltac:(lia)). congruence.
Qed.

Lemma below_refl u i : at_depth paths u i → below paths u u.
Proof. intros (p & Hp & Hi). exists p, i, i. eauto. Qed.

Lemma below_depth u x i j : below paths u x → at_depth paths u i → at_depth paths x j → (i ≤ j)%nat.
Proof.
  intros (p & a & b & Hp & Hab & Hu & Hx) Hi Hj.
  assert (i = a) as -> by (eapply depth_functional; [exact Hi|exists p; eauto]).
  assert (j = b) as -> by (eapply depth_functional; [exact Hj|exists p; eauto]).
  exact Hab.
Qed.

Lemma ancestor_unique c c' x k :
  below paths c x → below paths c' x → at_depth paths c k → at_depth paths c' k → c = c'.
Proof.
  intros (p & i & j & Hp & Hij & Hc & Hx) (q & i' & j' & Hq & Hij' & Hc' & Hx') Hk Hk'.
  assert (k = i) as -> by (eapply depth_functional; [exact Hk|exists p; eauto]).
  assert (i = i') as <- by (eapply depth_functional; [exact Hk'|exists q; eauto]).
  assert (j = j') as <- by exact (same_position p q _ _ x Hp Hq Hx Hx').
  destruct (decide (i = j)) as [->|Hne]; [congruence|].
  pose proof (same_way p q i j x Hp Hq Hx Hx' ltac:(lia)). congruence.
Qed.

Lemma below_link u c x : (u, c) ∈ all_links paths → below paths c x → below paths u x.
Proof.
  intros Hl (p & i & j & Hp & Hij & Hc & Hx).
  apply link_positions in Hl as (q & k & Hq & Hqu & Hqc).
  assert (i = S k) as -> by exact (same_position p q _ _ c Hp Hq Hc Hqc).
  pose proof (same_way p q k (S k) c Hp Hq Hc Hqc ltac:(lia)) as Hk.
  exists p, k, j. repeat split; [exact Hp|lia|congruence|exact Hx].
Qed.

Lemma below_split u x :
  below paths u x → x = u ∨ ∃ c, (u, c) ∈ all_links paths ∧ below paths c x.
Proof.
  intros (p & i & j & Hp & Hij & Hu & Hx).
  destruct (decide (i = j)) as [->|Hne]; [left; congruence|right].
  destruct (lookup_lt_is_Some_2 p (S i)) as [c Hc].
  { apply lookup_lt_Some in Hx. lia. }
  exists c. split.
  - apply link_positions. eauto.
  - exists p, (S i), j. repeat split; [exact Hp|lia|exact Hc|exact Hx].
Qed.

Lemma root_at_depth_0 p : p ∈ paths → p !! 0%nat = Some r.
Proof. intros Hp. rewrite <- head_lookup. now apply paths_start_at_root. Qed.

Lemma below_root x i : at_depth paths x i → below paths r x.
Proof.
  intros (p & Hp & Hi). exists p, 0%nat, i.
  repeat split; [exact Hp|lia|now apply root_at_depth_0|exact Hi].
Qed.

Lemma no_link_into_root u : (u, r) ∉ all_links paths.
Proof.
  intros Hl. apply link_positions in Hl as (p & i & Hp & _ & Hr).
  pose proof (root_at_depth_0 p Hp) as H0.
  pose proof (same_position p p (S i) 0%nat r Hp Hp Hr H0). lia.
Qed.

Lemma link_irreflexive u : (u, u) ∉ all_links paths.
Proof.
  intros Hl. apply link_positions in Hl as (p & i & Hp & Hu & Hu').
  pose proof (same_position p p i (S i) u Hp Hp Hu Hu'). lia.
Qed.

End ConsistentPaths.


Lemma max_length_bound (paths : list path) p :
  p ∈ paths → (length p ≤ max_length paths)%nat.
Proof.
  unfold max_length. induction paths as [|q paths IH]; intros Hp.
  - now apply elem_of_nil in Hp.
  - cbn [fmap list_fmap foldr]. apply elem_of_cons in Hp as [->|Hp]; [lia|].
    specialize (IH Hp). lia.
Qed.


Lemma vertex_id_lookup paths v :
  v ∈ vertices (build paths) →
  tree_id (build paths) !! v = Some (vertex_id paths v)
  ∧ vertices (build paths) !! vertex_id paths v = Some v.
Proof.
  intros Hv. apply list_elem_of_lookup in Hv as [i Hi].
  pose proof (links_inv_build paths) as Hinv.
  apply (inv_ids _ _ Hinv) in Hi as Hid. unfold vertex_id. rewrite Hid. simpl. auto.
Qed.

Lemma vertex_id_inj paths u v :
  u ∈ vertices (build paths) → v ∈ vertices (build paths) →
  vertex_id paths u = vertex_id paths v → u = v.
Proof.
  intros Hu Hv Heq.
  apply vertex_id_lookup in Hu as [_ Hu]. apply vertex_id_lookup in Hv as [_ Hv].
  congruence.
Qed.

Lemma link_vertices paths u v :
  (u, v) ∈ all_links paths →
  u ∈ vertices (build paths) ∧ v ∈ vertices (build paths).
Proof.
  intros Hl. pose proof (links_inv_build paths) as Hinv.
  split; apply (inv_vertices _ _ Hinv); eauto.
Qed.

Lemma edge_of_link paths u c :
  (u, c) ∈ all_links paths →
  edge_of (tree_id (build paths)) u c = Ok (edge_id paths (u, c)).
Proof.
  intros Hl. destruct (link_vertices paths u c Hl) as [Hu Hc]. unfold edge_of.
  rewrite (proj1 (vertex_id_lookup paths u Hu)).
  now rewrite (proj1 (vertex_id_lookup paths c Hc)).
Qed.

Lemma mapM_edge_of paths u (cs : list voxel) :
  (∀ c, c ∈ cs → (u, c) ∈ all_links paths) →
  mapM (edge_of (tree_id (build paths)) u) cs
  = Ok ((fun c => edge_id paths (u, c)) <$> cs).
Proof.
  intros Hcs. induction cs as [|c cs IH]; [reflexivity|].
  cbn [mapM fmap list_fmap].
  rewrite edge_of_link by apply Hcs, list_elem_of_here.
  cbn [mbind result_bind]. rewrite IH.
  - reflexivity.
  - intros c' Hc'. apply Hcs. now apply list_elem_of_further.
Qed.

Section UnionTraversal.
Variable set_order : gset voxel → list voxel.
Hypothesis set_order_perm : ∀ s, set_order s ≡ₚ elements s.
Variable paths : list path.
Variable r : voxel.
Hypothesis paths_start_at_root : ∀ p, p ∈ paths → head p = Some r.
Hypothesis paths_consistent : prefix_consistent paths.

Lemma at_depth_bound v i : at_depth paths v i → (i < max_length paths)%nat.
Proof.
  intros (p & Hp & Hi). apply lookup_lt_Some in Hi.
  pose proof (max_length_bound paths p Hp). lia.
Qed.

Lemma children_spec u :
  NoDup (set_order (default ∅ (tree (build paths) !! u)))
  ∧ ∀ c, c ∈ set_order (default ∅ (tree (build paths) !! u))
         ↔ (u, c) ∈ all_links paths.
Proof.
  pose proof (links_inv_build paths) as Hinv. split.
  - rewrite set_order_perm. apply NoDup_elements.
  - intros c. rewrite set_order_perm, elem_of_elements. apply (inv_tree _ _ Hinv).
Qed.

(** Popping the voxels [us], all at position [k] of their paths, and then
    everything pushed for them, appends the links below them, once each. *)
Lemma dfs_subtrees (h : nat) : ∀ (us : list voxel) (k : nat),
  (∀ u, u ∈ us → at_depth paths u k) → NoDup us →
  (max_length paths - k ≤ h)%nat →
  ∃ (n : nat) (links : list (voxel * voxel)),
    (∀ fuel rest acc,
       dfs set_order (n + fuel) (tree (build paths)) (tree_id (build paths))
           (us ++ rest) acc
       = dfs set_order fuel (tree (build paths)) (tree_id (build paths))
             rest (acc ++ (edge_id paths <$> links)))
    ∧ NoDup links
    ∧ ∀ x y, (x, y) ∈ links
             ↔ (x, y) ∈ all_links paths ∧ ∃ u, u ∈ us ∧ below paths u x.
Proof.
  induction h as [|h IHh]; intros us k; induction us as [|u us IHus];
    intros Hdepth Hnodup Hh.
  - exists 0%nat, []. split; [|split].
    + intros. cbn [app fmap list_fmap]. now rewrite app_nil_r.
    + constructor.
    + intros x y. split; [intros H; now apply elem_of_nil in H|].
      intros (_ & u & Hu & _). now apply elem_of_nil in Hu.
  - pose proof (at_depth_bound u k (Hdepth u (list_elem_of_here _ _))). lia.
  - exists 0%nat, []. split; [|split].
    + intros. cbn [app fmap list_fmap]. now rewrite app_nil_r.
    + constructor.
    + intros x y. split; [intros H; now apply elem_of_nil in H|].
      intros (_ & u & Hu & _). now apply elem_of_nil in Hu.
  - apply NoDup_cons in Hnodup as [Hu_fresh Hnodup].
    assert (Hu : at_depth paths u k) by apply Hdepth, list_elem_of_here.
    destruct (children_spec u) as [Hcs_nodup Hcs].
    set (cs := set_order (default ∅ (tree (build paths) !! u))) in *.
    destruct (IHh (reverse cs) (S k)) as (n1 & E1 & Hrun1 & Hnd1 & Hin1).
    { intros c Hc. apply elem_of_reverse, Hcs in Hc.
      exact (link_depth paths paths_consistent u c k Hc Hu). }
    { rewrite reverse_Permutation. exact Hcs_nodup. }
    { pose proof (at_depth_bound u k Hu). lia. }
    destruct IHus as (n2 & E2 & Hrun2 & Hnd2 & Hin2).
    { intros u' Hu'. apply Hdepth. now apply list_elem_of_further. }
    { exact Hnodup. }
    { exact Hh. }
    assert (Hchild_below : ∀ c x, c ∈ reverse cs → below paths c x → below paths u x).
    { intros c x Hc Hx. apply elem_of_reverse, Hcs in Hc.
      exact (below_link paths paths_consistent u c x Hc Hx). }
    assert (Hsame_level : ∀ u' x, u' ∈ us → below paths u' x → below paths u x → False).
    { intros u' x Hu' Hx' Hx. apply Hu_fresh.
      rewrite (ancestor_unique paths paths_consistent u u' x k Hx Hx' Hu);
        [exact Hu'|]. apply Hdepth. now apply list_elem_of_further. }
    exists (S (n1 + n2)), (((fun c => (u, c)) <$> cs) ++ E1 ++ E2).
    split; [|split].
    + intros fuel rest acc. cbn [Nat.add app dfs]. fold cs.
      rewrite mapM_edge_of by (intros c Hc; now apply Hcs).
      cbn [mbind result_bind].
      replace (n1 + n2 + fuel)%nat with (n1 + (n2 + fuel))%nat by lia.
      rewrite Hrun1, Hrun2. f_equal.
      rewrite !fmap_app, <- list_fmap_compose, <- !app_assoc. reflexivity.
    + apply NoDup_app. split; [|split].
      * apply NoDup_fmap_2; [|exact Hcs_nodup]. intros c c' [= ->]. reflexivity.
      * intros [x y] Hxy Hin. apply list_elem_of_fmap in Hxy as (c & [= -> ->] & Hc).
        apply elem_of_app in Hin as [Hin|Hin].
        -- apply Hin1 in Hin as (_ & c' & Hc' & Hbelow).
           apply elem_of_reverse, Hcs in Hc'.
           pose proof (link_depth paths paths_consistent u c' k Hc' Hu) as Hd.
           pose proof (below_depth paths paths_consistent c' u (S k) k Hbelow Hd Hu).
           lia.
        -- apply Hin2 in Hin as (_ & u' & Hu' & Hbelow).
           apply (Hsame_level u' u Hu' Hbelow).
           destruct Hu as (p & Hp & Hi). exists p, k, k. auto.
      * apply NoDup_app. split; [exact Hnd1|]. split; [|exact Hnd2].
        intros [x y] Hin Hin'. apply Hin1 in Hin as (_ & c & Hc & Hbelow).
        apply Hin2 in Hin' as (_ & u' & Hu' & Hbelow').
        apply (Hsame_level u' x Hu' Hbelow'). now apply (Hchild_below c).
    + intros x y. rewrite !elem_of_app, list_elem_of_fmap, Hin1, Hin2. split.
      * intros [(c & [= -> ->] & Hc)|[(Hl & c & Hc & Hbelow)|(Hl & u' & Hu' & Hbelow)]].
        -- split; [now apply Hcs|]. exists u. split; [apply list_elem_of_here|].
           destruct Hu as (p & Hp & Hi). exists p, k, k. auto.
        -- split; [exact Hl|]. exists u. split; [apply list_elem_of_here|].
           now apply (Hchild_below c).
        -- split; [exact Hl|]. exists u'. split; [now apply list_elem_of_further|].
           exact Hbelow.
      * intros (Hl & u' & Hu' & Hbelow). apply elem_of_cons in Hu' as [->|Hu'].
        -- apply below_split in Hbelow as [->|(c & Hc & Hbelow)].
           ++ left. exists y. split; [reflexivity|]. now apply Hcs.
           ++ right. left. split; [exact Hl|]. exists c. split; [|exact Hbelow].
              now apply elem_of_reverse, Hcs.
        -- right. right. split; [exact Hl|]. eauto.
Qed.

End UnionTraversal.

(** The vertices numbered so far keep their numbers. *)
Lemma assign_id_vertices_prefix v st : vertices st `prefix_of` vertices (assign_id v st).
Proof.
  unfold assign_id. destruct (tree_id st !! v); [reflexivity|].
  cbn [vertices]. now apply prefix_app_r.
Qed.

Lemma link_vertices_prefix st pc : vertices st `prefix_of` vertices (link st pc).
Proof.
  destruct pc as [parent child]. unfold link.
  etrans; [|apply assign_id_vertices_prefix].
  match goal with |- context [match ?t !! child with _ => _ end] =>
    destruct (t !! child) end; cbn [vertices];
    apply (assign_id_vertices_prefix parent (mk_union_state _ _ _ _)).
Qed.

Lemma fold_link_vertices_prefix L st :
  vertices st `prefix_of` vertices (fold_left link L st).
Proof.
  revert st. induction L as [|pc L IH]; intros st; cbn [fold_left]; [reflexivity|].
  etrans; [apply link_vertices_prefix|apply IH].
Qed.

Lemma first_link_numbers_root (r x : voxel) :
  vertices (link union_init (r, x)) !! 0%nat = Some r.
Proof.
  unfold link.
  set (st1 := assign_id r _).
  assert (H1 : vertices st1 !! 0%nat = Some r).
  { unfold st1, assign_id. cbn [tree_id union_init]. now rewrite lookup_empty. }
  eapply prefix_lookup_Some; [|apply assign_id_vertices_prefix].
  now destruct (tree st1 !! x).
Qed.

Lemma first_vertex_is_root (r x : voxel) (p : path) (ps : list path) :
  vertices (build ((r :: x :: p) :: ps)) !! 0%nat = Some r.
Proof.
  unfold build. rewrite build_all_links_gen.
  unfold all_links. cbn [map concat adjacent tail zip_with app fold_left].
  eapply prefix_lookup_Some; [|apply fold_link_vertices_prefix].
  apply first_link_numbers_root.
Qed.


Lemma depth_of_at_depth paths v : occurs paths v → at_depth paths v (depth_of paths v).
Proof.
  intros (p & Hp & Hv). unfold depth_of.
  destruct (list_find_elem_of (fun q : list voxel => v ∈ q) paths p Hp Hv)
    as [[k q] Hfind].
  rewrite Hfind. apply list_find_Some in Hfind as (Hk & Hq & _).
  destruct (list_find_elem_of (fun w => w = v) q v Hq eq_refl) as [[i w] Hfind'].
  rewrite Hfind'. apply list_find_Some in Hfind' as (Hi & -> & _).
  exists q. split; [|exact Hi]. apply list_elem_of_lookup. eauto.
Qed.

Lemma path_union_cons set_order fuel (r : voxel) (p : path) (ps : list path) :
  path_union set_order fuel ((r :: p) :: ps)
  = (edges ← dfs set_order fuel (tree (build ((r :: p) :: ps)))
               (tree_id (build ((r :: p) :: ps))) [r] [];
     Ok (npv_of (vertices (build ((r :: p) :: ps))), npe_of edges)).
Proof. reflexivity. Qed.

Section PathUnionTree.
Variable set_order : gset voxel → list voxel.
Hypothesis set_order_perm : ∀ s, set_order s ≡ₚ elements s.
Variable paths : list path.
Variable r : voxel.
Hypothesis paths_nonempty : paths ≠ [].
Hypothesis paths_start_at_root : ∀ p, p ∈ paths → head p = Some r.
Hypothesis paths_long : ∀ p, p ∈ paths → (2 ≤ length p)%nat.
Hypothesis paths_consistent : prefix_consistent paths.

Lemma occurs_at_depth v : occurs paths v ↔ ∃ i, at_depth paths v i.
Proof.
  split.
  - intros (p & Hp & Hv). apply list_elem_of_lookup in Hv as [i Hi]. exists i, p. auto.
  - intros (i & p & Hp & Hi). exists p. split; [exact Hp|].
    apply list_elem_of_lookup. eauto.
Qed.

Lemma link_occurs u v :
  (u, v) ∈ all_links paths → occurs paths u ∧ occurs paths v.
Proof.
  intros Hl. apply link_positions in Hl as (p & i & Hp & Hu & Hv).
  split; exists p; (split; [exact Hp|]); apply list_elem_of_lookup; eauto.
Qed.

(** Every voxel but the root has a link into it; the root has one out of it. *)
Lemma occurs_linked v :
  occurs paths v → v = r ∨ ∃ u, (u, v) ∈ all_links paths.
Proof.
  intros (p & Hp & Hv). apply list_elem_of_lookup in Hv as [i Hi].
  destruct i as [|i].
  - left. rewrite (root_at_depth_0 paths r paths_start_at_root p Hp) in Hi. congruence.
  - right. destruct (lookup_lt_is_Some_2 p i) as [u Hu].
    { apply lookup_lt_Some in Hi. lia. }
    exists u. apply link_positions. eauto.
Qed.

Lemma root_linked : ∃ x, (r, x) ∈ all_links paths.
Proof.
  destruct paths as [|p ps] eqn:Hpaths; [congruence|]. rewrite <- Hpaths in *.
  assert (Hp : p ∈ paths) by (rewrite Hpaths; apply list_elem_of_here).
  destruct (lookup_lt_is_Some_2 p 1%nat) as [x Hx].
  { specialize (paths_long p Hp). lia. }
  exists x. apply link_positions. exists p, 0%nat.
  split; [exact Hp|]. split; [|exact Hx].
  exact (root_at_depth_0 paths r paths_start_at_root p Hp).
Qed.

Lemma vertices_occur v : v ∈ vertices (build paths) ↔ occurs paths v.
Proof.
  pose proof (links_inv_build paths) as Hinv. rewrite (inv_vertices _ _ Hinv). split.
  - intros (w & [Hl|Hl]); apply link_occurs in Hl; tauto.
  - intros Hv. destruct (occurs_linked v Hv) as [->|[u Hu]].
    + destruct root_linked as [x Hx]. eauto.
    + eauto.
Qed.

Lemma root_is_vertex_0 : vertices (build paths) !! 0%nat = Some r.
Proof.
  destruct paths as [|p ps]; [congruence|].
  assert (Hp : p ∈ p :: ps) by apply list_elem_of_here.
  pose proof (paths_start_at_root p Hp) as Hhead.
  pose proof (paths_long p Hp) as Hlen.
  destruct p as [|r' [|x p]]; cbn in Hhead, Hlen; try lia.
  injection Hhead as ->. apply first_vertex_is_root.
Qed.

Lemma vertex_id_root : vertex_id paths r = 0%nat.
Proof.
  pose proof (links_inv_build paths) as Hinv.
  pose proof root_is_vertex_0 as H0. apply (inv_ids _ _ Hinv) in H0.
  unfold vertex_id. now rewrite H0.
Qed.

Lemma vertex_id_at v i :
  vertices (build paths) !! i = Some v → vertex_id paths v = i.
Proof.
  intros Hi. pose proof (links_inv_build paths) as Hinv.
  apply (inv_ids _ _ Hinv) in Hi. unfold vertex_id. now rewrite Hi.
Qed.

Lemma first_path : ∃ p ps, paths = (r :: p) :: ps.
Proof.
  destruct paths as [|p ps] eqn:Hpaths; [congruence|]. rewrite <- Hpaths in *.
  assert (Hp : p ∈ paths) by (rewrite Hpaths; apply list_elem_of_here).
  pose proof (paths_start_at_root p Hp) as Hhead.
  destruct p as [|r' p]; [discriminate|]. injection Hhead as ->. eauto.
Qed.

Lemma traversal_from_root :
  ∃ (n : nat) (links : list (voxel * voxel)),
    (∀ fuel, (n ≤ fuel)%nat →
       dfs set_order fuel (tree (build paths)) (tree_id (build paths)) [r] []
       = Ok (edge_id paths <$> links))
    ∧ NoDup links
    ∧ ∀ x y, (x, y) ∈ links ↔ (x, y) ∈ all_links paths.
Proof.
  destruct (dfs_subtrees set_order set_order_perm paths paths_consistent
              (max_length paths) [r] 0%nat) as (n & links & Hrun & Hnd & Hin).
  - intros u Hu. apply list_elem_of_singleton in Hu as ->.
    destruct root_linked as [x Hx]. apply link_positions in Hx as (p & i & Hp & _).
    exists p. split; [exact Hp|].
    exact (root_at_depth_0 paths r paths_start_at_root p Hp).
  - apply NoDup_singleton.
  - lia.
  - exists (S n), links. split; [|split; [exact Hnd|]].
    + intros fuel Hfuel. replace fuel with (n + S (fuel - S n))%nat by lia.
      change [r] with ([r] ++ []). rewrite Hrun. reflexivity.
    + intros x y. rewrite Hin. split; [tauto|]. intros Hl. split; [exact Hl|].
      exists r. split; [apply list_elem_of_here|].
      apply link_occurs in Hl as [Hx _]. apply occurs_at_depth in Hx as [i Hi].
      exact (below_root paths r paths_start_at_root x i Hi).
Qed.

(** C2, as amended. For a non-empty list of paths that all start at the
    voxel [r], have at least two vertices each and agree on the way to every
    voxel they share, and for any order in which Python iterates over a set,
    [path_union] returns as soon as the fuel of its traversal suffices. The
    vertex array then holds every voxel of the paths exactly once and nothing
    else, with [r] as vertex 0; the edges make the vertices one tree rooted
    at vertex 0: no edge twice, no self-edge, one parent for every vertex but
    the root, levels that grow by one along every edge, one edge fewer than
    vertices; and the edges are exactly the pairs of consecutive path voxels,
    so that a prefix shared by several paths appears once. *)
Theorem path_union_builds_tree :
  ∃ (n : nat) (vs : list voxel) (es : list (nat * nat)),
    (∀ fuel, (n ≤ fuel)%nat →
       path_union set_order fuel paths = Ok (npv_of vs, npe_of es))
    ∧ NoDup vs
    ∧ (∀ v, v ∈ vs ↔ occurs paths v)
    ∧ vs !! 0%nat = Some r
    ∧ rooted_tree (length vs) 0 es
    ∧ (∀ a b, (a, b) ∈ es ↔
              ∃ u v, vs !! a = Some u ∧ vs !! b = Some v
                     ∧ (u, v) ∈ all_links paths).
Proof.
  destruct traversal_from_root as (n & links & Hrun & Hnd & Hin).
  pose proof (links_inv_build paths) as Hinv.
  pose proof (links_inv_NoDup _ _ Hinv) as Hvs_nodup.
  pose proof root_is_vertex_0 as Hroot.
  set (vs := vertices (build paths)) in *.
  assert (Hid : ∀ u v, (u, v) ∈ all_links paths →
                       vs !! vertex_id paths u = Some u
                       ∧ vs !! vertex_id paths v = Some v).
  { intros u v Hl. destruct (link_vertices paths u v Hl) as [Hu Hv].
    split; now apply vertex_id_lookup. }
  assert (Hedges : ∀ a b, (a, b) ∈ edge_id paths <$> links ↔
                          ∃ u v, vs !! a = Some u ∧ vs !! b = Some v
                                 ∧ (u, v) ∈ all_links paths).
  { intros a b. rewrite list_elem_of_fmap. split.
    - intros ([u v] & [= -> ->] & Hl). apply Hin in Hl.
      destruct (Hid u v Hl). exists u, v. auto.
    - intros (u & v & Ha & Hb & Hl). exists (u, v). split; [|now apply Hin].
      unfold edge_id. cbn [fst snd].
      now rewrite (vertex_id_at u a Ha), (vertex_id_at v b Hb). }
  exists n, vs, (edge_id paths <$> links).
  split; [|split; [exact Hvs_nodup|split; [exact vertices_occur|split; [exact Hroot|split; [|exact Hedges]]]]].
  - intros fuel Hfuel. destruct first_path as (p & ps & Hshape).
    rewrite Hshape, path_union_cons, <- Hshape, (Hrun fuel Hfuel). reflexivity.
  - assert (Hlen : (length (edge_id paths <$> links) + 1 = length vs)%nat).
    { rewrite length_fmap.
      assert (Hperm : r :: (snd <$> links) ≡ₚ vs).
      { apply NoDup_Permutation; [|exact Hvs_nodup|].
        - apply NoDup_cons. split.
          + intros Hr. apply list_elem_of_fmap in Hr as ([u v] & -> & Hl).
            apply Hin in Hl. cbn [snd] in Hl.
            exact (no_link_into_root paths v paths_start_at_root paths_consistent u Hl).
          + apply NoDup_fmap_2_strong; [|exact Hnd].
            intros [u v] [u' v'] Hl Hl' Heq. cbn [snd] in Heq. subst v'.
            apply Hin in Hl, Hl'.
            now rewrite (parent_unique paths paths_consistent u u' v Hl Hl').
        - intros v. unfold vs. rewrite vertices_occur, elem_of_cons, list_elem_of_fmap.
          split.
          + intros [->|([u v'] & -> & Hl)].
            * destruct root_linked as [x Hx]. now apply link_occurs in Hx.
            * apply Hin, link_occurs in Hl. tauto.
          + intros Hv. destruct (occurs_linked v Hv) as [->|[u Hu]]; [now left|].
            right. exists (u, v). split; [reflexivity|now apply Hin]. }
      apply Permutation_length in Hperm. cbn [length] in Hperm.
      rewrite length_fmap in Hperm. lia. }
    split.
    + apply NoDup_fmap_2_strong; [|exact Hnd].
      intros [u v] [u' v'] Hl Hl' [= Hu Hv]. apply Hin in Hl, Hl'.
      destruct (link_vertices paths u v Hl), (link_vertices paths u' v' Hl').
      f_equal; now apply (vertex_id_inj paths).
    + intros a b Hab. apply Hedges in Hab as (u & v & Ha & Hb & _).
      split; eapply lookup_lt_Some; eauto.
    + intros a b Hab ->. apply Hedges in Hab as (u & v & Ha & Hb & Hl).
      assert (u = v) as -> by congruence.
      exact (link_irreflexive paths paths_consistent v Hl).
    + eapply lookup_lt_Some; eauto.
    + intros a Ha. apply Hedges in Ha as (u & v & _ & Hb & Hl).
      assert (v = r) as -> by congruence.
      exact (no_link_into_root paths r paths_start_at_root paths_consistent u Hl).
    + intros b Hb Hne. destruct (lookup_lt_is_Some_2 vs b Hb) as [v Hv].
      assert (Hocc : occurs paths v).
      { apply vertices_occur. apply list_elem_of_lookup. eauto. }
      destruct (occurs_linked v Hocc) as [->|[u Hu]].
      * exfalso. apply Hne. apply (NoDup_lookup vs b 0%nat r); auto.
      * exists (vertex_id paths u). apply Hedges. exists u, v.
        destruct (Hid u v Hu). auto.
    + intros a a' b Ha Ha'.
      apply Hedges in Ha as (u & v & Hu & Hv & Hl).
      apply Hedges in Ha' as (u' & v' & Hu' & Hv' & Hl').
      assert (v' = v) as -> by congruence.
      rewrite (parent_unique paths paths_consistent u u' v Hl Hl') in Hu.
      exact (NoDup_lookup vs a a' u' Hvs_nodup Hu Hu').
    + exists (fun a => match vs !! a with
                       | Some v => depth_of paths v
                       | None => 0%nat
                       end).
      intros a b Hab. apply Hedges in Hab as (u & v & -> & -> & Hl).
      destruct (link_occurs u v Hl) as [Hu Hv].
      apply depth_of_at_depth in Hu, Hv.
      pose proof (link_depth paths paths_consistent u v _ Hl Hu) as Hv'.
      exact (depth_functional paths paths_consistent v _ _ Hv Hv').
    + exact Hlen.
Qed.

End PathUnionTree.

Lemma two_branches_consistent :
  prefix_consistent
    [[(0, 0, 0); (1, 0, 0); (2, 0, 0)]; [(0, 0, 0); (1, 0, 0); (1, 1, 0)]].
Proof.
  intros p q i j v Hp Hq Hi Hj.
  repeat (apply elem_of_cons in Hp as [->|Hp]); [| |now apply elem_of_nil in Hp];
    (repeat (apply elem_of_cons in Hq as [->|Hq]); [| |now apply elem_of_nil in Hq]);
    destruct i as [|[|[|i]]]; destruct j as [|[|[|j]]];
    cbn in Hi, Hj; try discriminate; try congruence; reflexivity.
Qed.

Lemma path_union_builds_tree_witness :
  ∃ (n : nat) (vs : list voxel) (es : list (nat * nat)),
    path_union elements n
      [[(0, 0, 0); (1, 0, 0); (2, 0, 0)]; [(0, 0, 0); (1, 0, 0); (1, 1, 0)]]
    = Ok (npv_of vs, npe_of es)
    ∧ NoDup vs ∧ vs !! 0%nat = Some (0, 0, 0) ∧ rooted_tree (length vs) 0 es.
Proof.
  destruct (path_union_builds_tree elements (fun s => reflexivity _)
              [[(0, 0, 0); (1, 0, 0); (2, 0, 0)]; [(0, 0, 0); (1, 0, 0); (1, 1, 0)]]
              (0, 0, 0))
    as (n & vs & es & Hrun & Hnd & _ & Hroot & Htree & _).
  - discriminate.
  - intros p Hp.
    repeat (apply elem_of_cons in Hp as [->|Hp]); [reflexivity|reflexivity|].
    now apply elem_of_nil in Hp.
  - intros p Hp.
    repeat (apply elem_of_cons in Hp as [->|Hp]); [cbn; lia|cbn; lia|].
    now apply elem_of_nil in Hp.
  - exact two_branches_consistent.
  - exists n, vs, es. split; [apply Hrun; lia|]. auto.
Defined.

(** A path that repeats a voxel in consecutive positions links the voxel to
    itself, and the traversal pushes it again every time it pops it. *)
Lemma self_link_traversal_never_ends (fuel : nat) :
  ∀ (stack : list voxel) (edges : list (nat * nat)),
    (0, 0, 0) ∈ stack → (∀ s, s ∈ stack → s = (0, 0, 0) ∨ s = (1, 0, 0)) →
    dfs elements fuel (tree (build [[(0, 0, 0); (0, 0, 0); (1, 0, 0)]]))
        (tree_id (build [[(0, 0, 0); (0, 0, 0); (1, 0, 0)]])) stack edges
    = OutOfFuel.
Proof.
  induction fuel as [|fuel IH]; intros stack edges Hin Hall; [reflexivity|].
  destruct stack as [|s rest]; [now apply elem_of_nil in Hin|].
  assert (Ha : ∃ cs new,
             elements (default ∅ (tree (build [[(0, 0, 0); (0, 0, 0); (1, 0, 0)]])
                                  !! (0, 0, 0))) = cs
             ∧ mapM (edge_of (tree_id (build [[(0, 0, 0); (0, 0, 0); (1, 0, 0)]]))
                       (0, 0, 0)) cs = Ok new
             ∧ (0, 0, 0) ∈ cs ∧ ∀ c, c ∈ cs → c = (0, 0, 0) ∨ c = (1, 0, 0)).
  { eexists _, _. split; [vm_compute; reflexivity|]. split; [vm_compute; reflexivity|].
    split; [apply list_elem_of_here|]. intros c Hc.
    repeat (apply elem_of_cons in Hc as [->|Hc]; [tauto|]).
    now apply elem_of_nil in Hc. }
  assert (Hb : elements (default ∅ (tree (build [[(0, 0, 0); (0, 0, 0); (1, 0, 0)]])
                                    !! (1, 0, 0))) = []).
  { vm_compute. reflexivity. }
  destruct Ha as (cs & new & Hcs & Hnew & Hcs_in & Hcs_all).
  cbn [dfs]. destruct (Hall s (list_elem_of_here _ _)) as [->| ->].
  - rewrite Hcs, Hnew. cbn [mbind result_bind]. apply IH.
    + apply elem_of_app. left. now apply elem_of_reverse.
    + intros c Hc. apply elem_of_app in Hc as [Hc|Hc].
      * rewrite elem_of_reverse in Hc. now apply Hcs_all.
      * apply Hall. now apply list_elem_of_further.
  - rewrite Hb. cbn [mapM mbind result_bind reverse rev_append app]. apply IH.
    + apply elem_of_cons in Hin as [Hin|Hin]; [discriminate|exact Hin].
    + intros c Hc. apply Hall. now apply list_elem_of_further.
Qed.

(** C2, where it fails. A path of one vertex leaves its voxel out of the
    vertex array. Two paths that reach (2,0,0) by different ways give the
    edge out of it twice. A path that repeats a voxel in consecutive
    positions makes the traversal run for ever. *)
Lemma path_union_without_consistent_paths :
  path_union elements 2 [[(5, 5, 5)]] = Ok ([], [])
  ∧ (∃ npv npe,
       path_union elements 10
         [[(0, 0, 0); (1, 0, 0); (2, 0, 0); (3, 0, 0)]; [(0, 0, 0); (2, 0, 0)]]
       = Ok (npv, npe)
       ∧ reshape2 npe !! 3%nat = Some (2, 3)
       ∧ reshape2 npe !! 4%nat = Some (2, 3))
  ∧ (∀ fuel, path_union elements fuel [[(0, 0, 0); (0, 0, 0); (1, 0, 0)]]
             = OutOfFuel).
Proof.
  split; [vm_compute; reflexivity|]. split.
  - eexists _, _. split; [vm_compute; reflexivity|]. split; reflexivity.
  - intros fuel. unfold path_union.
    rewrite self_link_traversal_never_ends; [reflexivity|apply list_elem_of_here|].
    intros s Hs. apply list_elem_of_singleton in Hs. now left.
Qed.

(** ** [path_union] on arbitrary paths *)

Section AnyPaths.
Variable set_order : gset voxel → list voxel.
Hypothesis set_order_perm : ∀ s, set_order s ≡ₚ elements s.
Variable paths : list path.

Lemma children_are_links u c :
  c ∈ set_order (default ∅ (tree (build paths) !! u)) ↔ (u, c) ∈ all_links paths.
Proof.
  rewrite set_order_perm, elem_of_elements.
  apply (inv_tree _ _ (links_inv_build paths)).
Qed.

Lemma dfs_edges_are_links (fuel : nat) : ∀ stack acc,
  ∃ links,
    (∀ l, l ∈ links → l ∈ all_links paths)
    ∧ (dfs set_order fuel (tree (build paths)) (tree_id (build paths)) stack acc
         = Ok (acc ++ (edge_id paths <$> links))
       ∨ dfs set_order fuel (tree (build paths)) (tree_id (build paths)) stack acc
         = OutOfFuel).
Proof.
  induction fuel as [|fuel IH]; intros stack acc; cbn [dfs].
  - exists []. split; [intros l Hl; now apply elem_of_nil in Hl|now right].
  - destruct stack as [|parent rest].
    + exists []. split; [intros l Hl; now apply elem_of_nil in Hl|].
      left. cbn [fmap list_fmap]. now rewrite app_nil_r.
    + set (children := set_order (default ∅ (tree (build paths) !! parent))).
      rewrite (mapM_edge_of paths parent children)
        by (intros c Hc; now apply children_are_links).
      cbn [mbind result_bind].
      destruct (IH (reverse children ++ rest)
                   (acc ++ ((fun c => edge_id paths (parent, c)) <$> children)))
        as (links & Hlinks & Hrun).
      exists (((fun c => (parent, c)) <$> children) ++ links). split.
      * intros l Hl. apply elem_of_app in Hl as [Hl|Hl]; [|now apply Hlinks].
        apply list_elem_of_fmap in Hl as (c & -> & Hc). now apply children_are_links.
      * destruct Hrun as [Hrun|Hrun]; [left|now right].
        rewrite Hrun, fmap_app, <- list_fmap_compose, app_assoc. reflexivity.
Qed.

(** The arrays of a run that returns: the vertices numbered by the loop, and
    the numbers of some of the links. *)
Lemma path_union_Ok (fuel : nat) (npv npe : list Z) :
  path_union set_order fuel paths = Ok (npv, npe) →
  ∃ links,
    npv = npv_of (vertices (build paths))
    ∧ npe = npe_of (edge_id paths <$> links)
    ∧ ∀ l, l ∈ links → l ∈ all_links paths.
Proof.
  unfold path_union. destruct paths as [|p0 ps] eqn:Hpaths.
  - intros H. injection H as <- <-. exists []. split; [reflexivity|].
    split; [reflexivity|]. intros l Hl. now apply elem_of_nil in Hl.
  - destruct p0 as [|root p0]; [discriminate|]. rewrite <- Hpaths.
    destruct (dfs_edges_are_links fuel [root] [])
      as (links & Hlinks & [Hrun|Hrun]); rewrite Hrun; cbn [mbind result_bind];
      [|discriminate].
    intros H. injection H as <- <-. exists links. auto.
Qed.

Lemma path_union_raises (fuel : nat) (e : exn) :
  path_union set_order fuel paths = Raise e → e = IndexError ∧ head paths = Some [].
Proof.
  unfold path_union. destruct paths as [|p0 ps] eqn:Hpaths; [discriminate|].
  destruct p0 as [|root p0]; [intros H; injection H as <-; auto|].
  rewrite <- Hpaths.
  destruct (dfs_edges_are_links fuel [root] []) as (links & _ & [Hrun|Hrun]);
    rewrite Hrun; discriminate.
Qed.
End AnyPaths.

(** X5. Only an empty first path makes [path_union] raise: the look-ups
    [tree_id[parent]] and [tree_id[child]] of the traversal always find their
    key, and [paths[0][0]] is the one index taken. *)
Theorem path_union_raises_only_on_empty_first_path
    (set_order : gset voxel → list voxel) (fuel : nat) (paths : list path) (e : exn) :
  (∀ s, set_order s ≡ₚ elements s) →
  path_union set_order fuel paths = Raise e ↔ e = IndexError ∧ head paths = Some [].
Proof.
  intros Hperm. split; [apply (path_union_raises set_order Hperm)|].
  intros [-> Hhead]. destruct paths as [|[|v p0] ps]; try discriminate. reflexivity.
Qed.

Lemma path_union_raises_only_on_empty_first_path_witness :
  path_union elements 5 [[]; [(0, 0, 0); (1, 0, 0)]] = Raise IndexError.
Proof.
  apply (path_union_raises_only_on_empty_first_path elements 5
           [[]; [(0, 0, 0); (1, 0, 0)]] IndexError (fun s => reflexivity _)).
  split; reflexivity.
Defined.

(** X6. Whatever the paths, the arrays returned are sound: the vertex array lists
    without repetition the voxels that take part in a pair of consecutive path
    vertices, and every edge joins the numbers of such a pair, parent first. *)
Theorem path_union_edges_are_links
    (set_order : gset voxel → list voxel) (fuel : nat) (paths : list path)
    (npv npe : list Z) :
  (∀ s, set_order s ≡ₚ elements s) →
  path_union set_order fuel paths = Ok (npv, npe) →
  ∃ (vs : list voxel) (es : list (nat * nat)),
    npv = npv_of vs ∧ npe = npe_of es
    ∧ NoDup vs
    ∧ (∀ v, v ∈ vs ↔ ∃ w, (v, w) ∈ all_links paths ∨ (w, v) ∈ all_links paths)
    ∧ ∀ a b, (a, b) ∈ es →
        ∃ u v, (u, v) ∈ all_links paths ∧ vs !! a = Some u ∧ vs !! b = Some v.
Proof.
  intros Hperm Hrun.
  destruct (path_union_Ok set_order Hperm paths fuel npv npe Hrun)
    as (links & -> & -> & Hlinks).
  pose proof (links_inv_build paths) as Hinv.
  exists (vertices (build paths)), (edge_id paths <$> links).
  split; [reflexivity|]. split; [reflexivity|].
  split; [exact (links_inv_NoDup _ _ Hinv)|].
  split; [exact (inv_vertices _ _ Hinv)|].
  intros a b Hab.
  apply list_elem_of_fmap in Hab as ([u v] & Heq & Hl).
  injection Heq as -> ->. exists u, v. specialize (Hlinks _ Hl).
  destruct (link_vertices paths u v Hlinks) as [Hu Hv].
  split; [exact Hlinks|]. cbn [fst snd].
  split; [exact (proj2 (vertex_id_lookup paths u Hu))
         |exact (proj2 (vertex_id_lookup paths v Hv))].
Qed.

Lemma path_union_edges_are_links_witness :
  ∃ (vs : list voxel) (es : list (nat * nat)),
    [0;0;0; 1;0;0; 2;0;0] = npv_of vs ∧ [0;2; 0;1; 2;1] = npe_of es
    ∧ NoDup vs
    ∧ ∀ a b, (a, b) ∈ es →
        ∃ u v, (u, v) ∈ all_links [[(0,0,0); (1,0,0)]; [(0,0,0); (2,0,0); (1,0,0)]]
               ∧ vs !! a = Some u ∧ vs !! b = Some v.
Proof.
  destruct (path_union_edges_are_links elements 10
              [[(0,0,0); (1,0,0)]; [(0,0,0); (2,0,0); (1,0,0)]]
              [0;0;0; 1;0;0; 2;0;0] [0;2; 0;1; 2;1] (fun s => reflexivity _))
    as (vs & es & Hv & He & Hnd & _ & Hes).
  - vm_compute. reflexivity.
  - exists vs, es. auto.
Defined.

(** ** The numbering of the vertices *)

Lemma assign_id_add_new v st :
  ids_inv st →
  ids_inv (assign_id v st) ∧ vertices (assign_id v st) = add_new (vertices st) v.
Proof.
  unfold ids_inv. intros Hinv. unfold assign_id, add_new.
  destruct (tree_id st !! v) as [i|] eqn:Hv.
  - split; [exact Hinv|]. rewrite decide_True; [reflexivity|].
    apply Hinv. rewrite Hv. eauto.
  - cbn [vertices]. split.
    + intros w. cbn [tree_id vertices]. rewrite elem_of_app, list_elem_of_singleton.
      destruct (decide (w = v)) as [->|Hne].
      * rewrite lookup_insert_eq. split; eauto.
      * rewrite lookup_insert_ne by congruence. rewrite Hinv. tauto.
    + rewrite decide_False; [reflexivity|].
      intros Hin. apply Hinv in Hin. rewrite Hv in Hin. now destruct Hin.
Qed.

Lemma link_add_new st u v :
  ids_inv st →
  ids_inv (link st (u, v))
  ∧ vertices (link st (u, v)) = add_new (add_new (vertices st) u) v.
Proof.
  intros Hinv. unfold link.
  set (st1 := mk_union_state _ (tree_id st) (vertices st) (ct st)).
  assert (H1 : ids_inv st1) by exact Hinv.
  destruct (assign_id_add_new u st1 H1) as [H2 Hv2].
  set (st2 := assign_id u st1) in *.
  set (st3 := match tree st2 !! v with
              | Some _ => st2
              | None => mk_union_state (<[v := ∅]> (tree st2))
                          (tree_id st2) (vertices st2) (ct st2)
              end).
  assert (H3 : ids_inv st3 ∧ vertices st3 = vertices st2).
  { unfold st3. destruct (tree st2 !! v); split; auto. }
  destruct H3 as [H3 Hv3].
  destruct (assign_id_add_new v st3 H3) as [H4 Hv4].
  split; [exact H4|]. rewrite Hv4, Hv3, Hv2. reflexivity.
Qed.

Lemma fold_link_add_new (L : list (voxel * voxel)) : ∀ st,
  ids_inv st →
  vertices (fold_left link L st) = fold_left add_new (both_ends L) (vertices st).
Proof.
  induction L as [|[u v] L IH]; intros st Hinv; [reflexivity|].
  cbn [fold_left both_ends flat_map app fst snd].
  destruct (link_add_new st u v Hinv) as [Hinv' Hv].
  rewrite IH by exact Hinv'. now rewrite Hv.
Qed.

Lemma add_new_known acc v : v ∈ acc → add_new acc v = acc.
Proof. intros Hin. unfold add_new. now rewrite decide_True. Qed.

Lemma elem_of_add_new acc v : v ∈ add_new acc v.
Proof.
  unfold add_new. destruct (decide (v ∈ acc)); [assumption|].
  apply elem_of_app. right. apply list_elem_of_here.
Qed.

Lemma fold_add_new_adjacent (p : path) : ∀ (b : voxel) (acc : list voxel),
  b ∈ acc →
  fold_left add_new (both_ends (adjacent (b :: p))) acc = fold_left add_new p acc.
Proof.
  induction p as [|c p IH]; intros b acc Hb; [reflexivity|].
  change (adjacent (b :: c :: p)) with ((b, c) :: adjacent (c :: p)).
  cbn [both_ends flat_map app fold_left fst snd].
  rewrite (add_new_known acc b Hb).
  apply (IH c (add_new acc c)), elem_of_add_new.
Qed.

Lemma fold_add_new_path (p : path) (acc : list voxel) :
  length p ≠ 1%nat →
  fold_left add_new (both_ends (adjacent p)) acc = fold_left add_new p acc.
Proof.
  intros Hlen. destruct p as [|a [|b p]]; [reflexivity|now cbn in Hlen|].
  change (adjacent (a :: b :: p)) with ((a, b) :: adjacent (b :: p)).
  cbn [both_ends flat_map app fold_left fst snd].
  apply (fold_add_new_adjacent p b), elem_of_add_new.
Qed.

Lemma both_ends_app L1 L2 : both_ends (L1 ++ L2) = both_ends L1 ++ both_ends L2.
Proof. unfold both_ends. apply flat_map_app. Qed.

Lemma fold_add_new_paths (paths : list path) : ∀ acc,
  (∀ p, p ∈ paths → length p ≠ 1%nat) →
  fold_left add_new (both_ends (all_links paths)) acc
  = fold_left add_new (concat paths) acc.
Proof.
  unfold all_links. induction paths as [|p paths IH]; intros acc Hlen; [reflexivity|].
  cbn [map concat]. rewrite both_ends_app, !fold_left_app.
  rewrite fold_add_new_path by apply Hlen, list_elem_of_here.
  apply IH. intros q Hq. now apply Hlen, list_elem_of_further.
Qed.

(** X7. The voxels are numbered in the order in which the paths first come to
    them, path after path; the order in which Python iterates over the sets
    of children plays no part in it. (A path of one vertex has no pair of
    consecutive vertices and is passed over.) *)
Theorem vertices_in_order_of_first_occurrence
    (set_order : gset voxel → list voxel) (fuel : nat) (paths : list path)
    (npv npe : list Z) :
  (∀ p, p ∈ paths → length p ≠ 1%nat) →
  path_union set_order fuel paths = Ok (npv, npe) →
  npv = npv_of (first_occurrences (concat paths)).
Proof.
  intros Hlen Hrun.
  assert (Hv : vertices (build paths) = first_occurrences (concat paths)).
  { unfold build, first_occurrences. rewrite build_all_links_gen.
    rewrite fold_link_add_new; [now apply fold_add_new_paths|].
    intros v. cbn [union_init tree_id vertices]. rewrite lookup_empty. split.
    - intros [x Hx]. discriminate.
    - intros Hin. now apply elem_of_nil in Hin. }
  unfold path_union in Hrun. destruct paths as [|p0 ps].
  - injection Hrun as <- <-. reflexivity.
  - destruct p0 as [|root p0]; [discriminate|].
    destruct (dfs _ _ _ _ _ _) as [edges| |]; cbn [mbind result_bind] in Hrun;
      try discriminate.
    injection Hrun as <- <-. now rewrite Hv.
Qed.

Lemma vertices_in_order_of_first_occurrence_witness :
  [0;0;0; 1;0;0; 2;0;0; 1;1;0]
  = npv_of (first_occurrences
              (concat [[(0,0,0); (1,0,0); (2,0,0)]; [(0,0,0); (1,0,0); (1,1,0)]])).
Proof.
  apply (vertices_in_order_of_first_occurrence elements 10
           [[(0,0,0); (1,0,0); (2,0,0)]; [(0,0,0); (1,0,0); (1,1,0)]]
           [0;0;0; 1;0;0; 2;0;0; 1;1;0] [0;1; 1;2; 1;3]).
  - intros p Hp. repeat (apply elem_of_cons in Hp as [->|Hp]; [cbn [length]; lia|]).
    now apply elem_of_nil in Hp.
  - vm_compute. reflexivity.
Defined.

(** ** The bookkeeping of [compute_paths] *)

Section ExtractionBookkeeping.
Variable E : Collaborators.
Variables (root : voxel) (DBF PDRF : field) (parents : parents_t E).
Variables (scale const : float) (anisotropy : spacing).
Variables (soma_mode : bool) (soma_radius : float).

Local Abbreviation step :=
  (compute_paths_step E root DBF PDRF parents scale const anisotropy
     soma_mode soma_radius).
Local Abbreviation loop :=
  (compute_paths_loop E root DBF PDRF parents scale const anisotropy
     soma_mode soma_radius).

Lemma step_invalid_vertices st :
  es_invalid_vertices (step st)
  = es_invalid_vertices st ∪ list_to_set (next_path E root PDRF parents anisotropy
                                            soma_mode soma_radius (es_labels st))
  ∧ es_paths (step st)
    = es_paths st ++ [next_path E root PDRF parents anisotropy
                        soma_mode soma_radius (es_labels st)].
Proof.
  unfold compute_paths_step.
  destruct (roll_invalidation_cube _ _ _ _ _ _ _ _) as [invalidated labels'].
  split; reflexivity.
Qed.

(** The paths returned extend the paths of the state the loop starts in. *)
Lemma compute_paths_loop_extends fuel : ∀ st paths,
  loop fuel st = Ok paths → (length (es_paths st) ≤ length paths)%nat.
Proof.
  induction fuel as [|fuel IH]; intros st paths; cbn [compute_paths_loop];
    [discriminate|].
  destruct (0 <? es_valid_labels st).
  - intros H. apply IH in H. rewrite step_appends_one_path in H. lia.
  - intros H. injection H as <-. lia.
Qed.

(** X8. At the start of every iteration [invalid_vertices], the dict handed to
    [roll_invalidation_cube], holds the vertices of the paths appended so far
    and, in soma mode, the root; nothing else. *)
Theorem invalid_vertices_are_the_path_vertices (labels : mask) (n : nat) :
  let st := Nat.iter n step (compute_paths_init root soma_mode labels) in
  es_invalid_vertices st
  = (if soma_mode then {[root]} else ∅) ∪ list_to_set (concat (es_paths st))
  ∧ length (es_paths st) = n.
Proof.
  induction n as [|n IH]; cbn zeta.
  - simpl. split; [|reflexivity]. now rewrite (right_id_L ∅ (∪)).
  - rewrite Nat.iter_succ. cbn zeta in IH. destruct IH as [IHv IHl].
    destruct (step_invalid_vertices
                (Nat.iter n step (compute_paths_init root soma_mode labels)))
      as [-> ->].
    rewrite IHv, concat_app, list_to_set_app_L. cbn [concat].
    rewrite app_nil_r, length_app, IHl. cbn [length].
    split; [now rewrite (assoc_L (∪))|lia].
Qed.

(** X9. [compute_paths] returns no path exactly for a mask without a true voxel;
    then no collaborator is consulted. *)
Theorem compute_paths_no_path_iff_no_voxel (fuel : nat) (labels : mask) :
  (0 < fuel)%nat →
  compute_paths E root DBF PDRF parents scale const anisotropy
    soma_mode soma_radius fuel labels = Ok []
  ↔ count_nonzero labels = 0.
Proof.
  intros Hfuel. destruct fuel as [|fuel]; [lia|].
  unfold compute_paths. cbn [compute_paths_loop compute_paths_init es_valid_labels].
  assert (Hcount : 0 ≤ count_nonzero labels) by (unfold count_nonzero; lia).
  destruct (0 <? count_nonzero labels) eqn:Hpos.
  - apply Z.ltb_lt in Hpos. split; [|lia].
    intros H. apply compute_paths_loop_extends in H.
    rewrite step_appends_one_path in H. cbn [length] in H. lia.
  - apply Z.ltb_ge in Hpos. cbn [es_paths]. split; [lia|reflexivity].
Qed.
End ExtractionBookkeeping.

Lemma compute_paths_no_path_iff_no_voxel_witness :
  compute_paths toy (0, 0, 0) (field_of (2, 1, 1)%nat []) (field_of (2, 1, 1)%nat [])
    (0, 0, 0) (F64.of_Z 10) (F64.of_Z 10) (F64.of_Z 1, F64.of_Z 1, F64.of_Z 1)
    false F64.zero 1 (mask_of (2, 1, 1)%nat []) = Ok []
  ↔ count_nonzero (mask_of (2, 1, 1)%nat []) = 0.
Proof.
  apply (compute_paths_no_path_iff_no_voxel toy (0, 0, 0) (field_of (2, 1, 1)%nat [])
           (field_of (2, 1, 1)%nat []) (0, 0, 0) (F64.of_Z 10) (F64.of_Z 10)
           (F64.of_Z 1, F64.of_Z 1, F64.of_Z 1) false F64.zero 1
           (mask_of (2, 1, 1)%nat [])).
  lia.
Defined.

(** ** Soma suppression and the root *)

(** The distance of the root from itself is 0, or NaN when a spacing is
    infinite or NaN. *)
Lemma dist_to_soma_root_self (anisotropy : spacing) (root : voxel) :
  dist_to_soma_root anisotropy root root = S754_zero false
  ∨ dist_to_soma_root anisotropy root root = S754_nan.
Proof.
  destruct anisotropy as [[ax ay] az], root as [[x y] z].
  unfold dist_to_soma_root. rewrite !Z.sub_diag.
  destruct ax as [[]|[]| |[] ? ?], ay as [[]|[]| |[] ? ?], az as [[]|[]| |[] ? ?];
    vm_compute; auto.
Qed.

Lemma soma_suppress_far (anisotropy : spacing) (root : voxel) (soma_radius : float)
    (p : path) (v : voxel) :
  v ∈ drop 1 (soma_suppress anisotropy root soma_radius p) →
  fgt (dist_to_soma_root anisotropy root v) soma_radius = true.
Proof.
  unfold soma_suppress. destruct p as [|a p]; [intros H; now apply elem_of_nil in H|].
  cbn [take app drop]. rewrite take_0. cbn [app]. rewrite drop_0.
  intros H. apply list_elem_of_In, filter_In in H. tauto.
Qed.

(** X10. In soma mode, with a soma radius that is not negative, the root is
    dropped from every position of a path but the first, and so is every
    other vertex that is not farther from the root than the radius. *)
Theorem soma_suppression_removes_root
    (E : Collaborators) (root : voxel) (PDRF : field) (parents : parents_t E)
    (anisotropy : spacing) (soma_radius : float) (labels : mask) :
  SFltb soma_radius (S754_zero false) = false →
  let p := next_path E root PDRF parents anisotropy true soma_radius labels in
  (root ∉ drop 1 p)
  ∧ ∀ v, v ∈ drop 1 p →
      fgt (dist_to_soma_root anisotropy root v) soma_radius = true.
Proof.
  intros Hradius p. subst p. unfold next_path. split.
  - intros Hin. apply soma_suppress_far in Hin. unfold fgt in Hin.
    destruct (dist_to_soma_root_self anisotropy root) as [Hd|Hd];
      rewrite Hd in Hin; [congruence|].
    destruct soma_radius as [[]|[]| |[] ? ?]; discriminate.
  - intros v. apply soma_suppress_far.
Qed.

Lemma soma_suppression_removes_root_witness :
  (0, 0, 0) ∉ drop 1
    (next_path toy (0, 0, 0) (field_of (4, 1, 1)%nat [((3, 0, 0), F32.one)])
       (0, 0, 0) (F64.of_Z 1, F64.of_Z 1, F64.of_Z 1) true (F64.of_Z 1)
       (mask_of (4, 1, 1)%nat [(0, 0, 0); (3, 0, 0)])).
Proof.
  apply (soma_suppression_removes_root toy (0, 0, 0)
           (field_of (4, 1, 1)%nat [((3, 0, 0), F32.one)]) (0, 0, 0)
           (F64.of_Z 1, F64.of_Z 1, F64.of_Z 1) (F64.of_Z 1)
           (mask_of (4, 1, 1)%nat [(0, 0, 0); (3, 0, 0)])).
  vm_compute. reflexivity.
Defined.

(** ** Strides *)

Lemma stride_aux_1 {A : Type} (l : list A) : stride_aux 1 0 l = l.
Proof. induction l as [|x l IH]; [reflexivity|]. cbn [stride_aux Nat.sub]. now rewrite IH. Qed.

(** X11. With the default stride of 1 the slice [path[0:-2]] still stops two
    short: every path of two or more vertices loses its second-to-last
    vertex, and only that one. *)
Theorem default_stride_drops_second_to_last (p : path) :
  (2 ≤ length p)%nat → downsample 1 p = Ok (delete (length p - 2)%nat p).
Proof.
  intros Hlen. unfold downsample, slice_0_m2, slice_last, stride.
  cbn [Z.eqb Z.ltb Z.compare Z.to_nat Pos.to_nat Pos.iter_op Nat.add mbind result_bind].
  rewrite stride_aux_1. f_equal.
  rewrite delete_take_drop. f_equal. f_equal. lia.
Qed.

Lemma default_stride_drops_second_to_last_witness :
  downsample 1 [(0, 0, 0); (1, 0, 0); (2, 0, 0); (3, 0, 0)]
  = Ok [(0, 0, 0); (1, 0, 0); (3, 0, 0)].
Proof.
  apply (default_stride_drops_second_to_last
           [(0, 0, 0); (1, 0, 0); (2, 0, 0); (3, 0, 0)]).
  cbn [length]. lia.
Defined.

Lemma stride_aux_lookup {A : Type} (k : nat) (l : list A) : ∀ (skip m : nat),
  (1 ≤ k)%nat → stride_aux k skip l !! m = l !! (skip + m * k)%nat.
Proof.
  induction l as [|x l IH]; intros skip m Hk; cbn [stride_aux]; [reflexivity|].
  destruct skip as [|skip].
  - destruct m as [|m]; [reflexivity|].
    cbn [lookup list_lookup]. rewrite IH by exact Hk.
    replace (0 + S m * k)%nat with (S (k - 1 + m * k)) by lia. reflexivity.
  - rewrite IH by exact Hk. reflexivity.
Qed.

Lemma stride_length {A : Type} (k : nat) (l : list A) :
  (1 ≤ k)%nat → length (stride k l) = ((length l + k - 1) / k)%nat.
Proof.
  intros Hk. unfold stride.
  set (L := length (stride_aux k 0 l)).
  assert (Hiff : ∀ m, (m < L)%nat ↔ (m * k < length l)%nat).
  { intros m. unfold L. rewrite <- !lookup_lt_is_Some, stride_aux_lookup by exact Hk.
    reflexivity. }
  assert (Hhi : (length l ≤ L * k)%nat).
  { destruct (Nat.le_gt_cases (length l) (L * k)) as [H|H]; [exact H|].
    apply Hiff in H. lia. }
  assert (Hlo : (L * k < length l + k)%nat).
  { destruct L as [|L']; [lia|].
    pose proof (proj1 (Hiff L') ltac:(lia)). lia. }
  apply (Nat.div_unique _ _ _ (length l + k - 1 - k * L)); lia.
Qed.

(** X12. With a stride [k] of 1 or more, a path of [n >= 2] vertices keeps the
    vertices at the positions 0, k, 2k, ... below [n - 2], followed by its
    last vertex. *)
Theorem downsample_keeps_every_kth (k : Z) (p : path) :
  0 < k → (2 ≤ length p)%nat →
  ∃ q, downsample k p = Ok q
       ∧ length q = S ((length p - 2 + Z.to_nat k - 1) / Z.to_nat k)
       ∧ (∀ m, (m < length q - 1)%nat → q !! m = p !! (m * Z.to_nat k)%nat)
       ∧ last q = last p.
Proof.
  intros Hk Hlen. unfold downsample, slice_0_m2.
  destruct (k =? 0) eqn:Hk0; [apply Z.eqb_eq in Hk0; lia|].
  destruct (0 <? k) eqn:Hkpos; [|apply Z.ltb_ge in Hkpos; lia].
  cbn [mbind result_bind]. eexists. split; [reflexivity|].
  assert (Hk1 : (1 ≤ Z.to_nat k)%nat) by lia.
  assert (Hlast : ∃ v, slice_last p = [v] ∧ last p = Some v).
  { unfold slice_last. destruct (last p) as [v|] eqn:Hl.
    - exists v. split; [|reflexivity]. rewrite last_lookup in Hl.
      replace (length p - 1)%nat with (pred (length p)) by lia.
      now rewrite (drop_S _ v _ Hl), drop_ge by lia.
    - apply last_None in Hl. subst p. cbn in Hlen. lia. }
  destruct Hlast as (v & -> & Hv).
  pose proof (stride_length (Z.to_nat k) (take (length p - 2) p) Hk1) as Hs.
  rewrite length_take in Hs. rewrite Nat.min_l in Hs by lia.
  split; [|split].
  - rewrite length_app, Hs. cbn [length]. lia.
  - intros m Hm. rewrite length_app, Hs in Hm. cbn [length] in Hm.
    rewrite lookup_app_l by (rewrite Hs; lia).
    unfold stride. rewrite stride_aux_lookup by exact Hk1. cbn [Nat.add].
    apply lookup_take_lt.
    assert (Hlt : (m < length (stride (Z.to_nat k) (take (length p - 2) p)))%nat)
      by (rewrite Hs; lia).
    unfold stride in Hlt. apply lookup_lt_is_Some in Hlt.
    rewrite stride_aux_lookup in Hlt by exact Hk1.
    apply lookup_lt_is_Some in Hlt. rewrite length_take in Hlt. cbn [Nat.add] in Hlt. lia.
  - rewrite last_app. cbn [last]. now rewrite Hv.
Qed.

Lemma downsample_keeps_every_kth_witness :
  ∃ q, downsample 2 [(0,0,0); (1,0,0); (2,0,0); (3,0,0); (4,0,0); (5,0,0); (6,0,0)] = Ok q
       ∧ length q = 4%nat ∧ q !! 1%nat = Some (2, 0, 0) ∧ last q = Some (6, 0, 0).
Proof.
  destruct (downsample_keeps_every_kth 2
              [(0,0,0); (1,0,0); (2,0,0); (3,0,0); (4,0,0); (5,0,0); (6,0,0)])
    as (q & Hq & Hlen & Hkth & Hlast).
  - lia.
  - cbn [length]. lia.
  - exists q. split; [exact Hq|]. split; [exact Hlen|].
    split; [|exact Hlast]. apply (Hkth 1%nat). rewrite Hlen. vm_compute. lia.
Defined.

Lemma negative_stride_keeps_last (k : Z) (p : path) :
  k < 0 → (2 ≤ length p)%nat → ∃ v, downsample k p = Ok [v] ∧ last p = Some v.
Proof.
  intros Hk Hlen. unfold downsample, slice_0_m2, slice_last.
  destruct (k =? 0) eqn:Hk0; [apply Z.eqb_eq in Hk0; lia|].
  destruct (0 <? k) eqn:Hkpos; [apply Z.ltb_lt in Hkpos; lia|].
  destruct (length p =? 1)%nat eqn:H1; [apply Nat.eqb_eq in H1; lia|].
  cbn [mbind result_bind app].
  destruct (last p) as [v|] eqn:Hlast.
  - exists v. split; [|reflexivity]. f_equal.
    rewrite last_lookup in Hlast.
    replace (length p - 1)%nat with (pred (length p)) by lia.
    now rewrite (drop_S _ v _ Hlast), drop_ge by lia.
  - apply last_None in Hlast. subst p. cbn in Hlen. lia.
Qed.

Lemma mapM_negative_stride (k : Z) (paths : list path) :
  k < 0 → (∀ p, p ∈ paths → (2 ≤ length p)%nat) →
  ∃ paths', mapM (downsample k) paths = Ok paths'
            ∧ ∀ p, p ∈ paths' → ∃ v, p = [v].
Proof.
  intros Hk. induction paths as [|p paths IH]; intros Hlen.
  - exists []. split; [reflexivity|]. intros p Hp. now apply elem_of_nil in Hp.
  - destruct (negative_stride_keeps_last k p Hk) as (v & Hv & _);
      [apply Hlen, list_elem_of_here|].
    destruct IH as (paths' & Hrun & Hadj);
      [intros q Hq; now apply Hlen, list_elem_of_further|].
    exists ([v] :: paths'). cbn [mapM]. rewrite Hv, Hrun. cbn [mbind result_bind].
    split; [reflexivity|]. intros q Hq.
    apply elem_of_cons in Hq as [->|Hq]; [now exists v|now apply Hadj].
Qed.

Lemma build_without_links (paths : list path) :
  (∀ p, p ∈ paths → adjacent p = []) → build paths = union_init.
Proof.
  intros Hadj. unfold build. rewrite build_all_links_gen.
  replace (all_links paths) with (@nil (voxel * voxel)); [reflexivity|].
  unfold all_links. induction paths as [|p paths IH]; [reflexivity|].
  cbn [map concat]. rewrite (Hadj p) by apply list_elem_of_here.
  cbn [app]. apply IH. intros q Hq. now apply Hadj, list_elem_of_further.
Qed.

(** X13. A negative stride is accepted without an error and empties the result:
    each path of two or more vertices is cut down to its last vertex, so no
    two consecutive vertices are left to register, and the skeleton has no
    vertex, edge or radius. *)
Theorem negative_stride_empties_the_skeleton
    (E : Collaborators) (fuel : nat) (DBF : field) (k : Z) (paths : list path) :
  set_order E ∅ = [] →
  k < 0 →
  (∀ p, p ∈ paths → (2 ≤ length p)%nat) →
  assemble E (S (S fuel)) DBF k paths = Ok empty_skeleton.
Proof.
  intros Hempty Hk Hlen. unfold assemble.
  destruct (mapM_negative_stride k paths Hk Hlen) as (paths' & -> & Hone).
  cbn [mbind result_bind]. unfold path_union.
  destruct paths' as [|p0 ps]; [reflexivity|].
  rewrite build_without_links
    by (intros p Hp; destruct (Hone p Hp) as [v ->]; reflexivity).
  destruct (Hone p0 (list_elem_of_here _ _)) as [root ->].
  cbn [dfs union_init tree tree_id vertices]. rewrite lookup_empty. cbn [default].
  rewrite Hempty. reflexivity.
Qed.

Lemma negative_stride_empties_the_skeleton_witness :
  assemble toy 2 (field_of (4, 1, 1)%nat []) (-1)
    [[(0, 0, 0); (1, 0, 0); (2, 0, 0)]; [(0, 0, 0); (1, 0, 0); (1, 1, 0)]]
  = Ok empty_skeleton.
Proof.
  apply (negative_stride_empties_the_skeleton toy 0 (field_of (4, 1, 1)%nat []) (-1)
           [[(0, 0, 0); (1, 0, 0); (2, 0, 0)]; [(0, 0, 0); (1, 0, 0); (1, 1, 0)]]).
  - exact elements_empty.
  - lia.
  - intros p Hp. repeat (apply elem_of_cons in Hp as [->|Hp]; [cbn [length]; lia|]).
    now apply elem_of_nil in Hp.
Defined.

(** ** From the paths to the skeleton *)

Lemma reshape3_npv_of (vs : list voxel) :
  reshape3 (npv_of vs)
  = map (fun v : voxel => let '(x, y, z) := v in (u32 x, u32 y, u32 z)) vs.
Proof.
  induction vs as [|[[x y] z] vs IH]; [reflexivity|].
  cbn [npv_of flat_map app reshape3 map]. f_equal. exact IH.
Qed.

Lemma reshape2_npe_of (es : list (nat * nat)) :
  reshape2 (npe_of es)
  = map (fun e : nat * nat => (u32 (Z.of_nat e.1), u32 (Z.of_nat e.2))) es.
Proof.
  induction es as [|e es IH]; [reflexivity|].
  cbn [npe_of flat_map app reshape2 map]. f_equal. exact IH.
Qed.

Lemma mapM_Ok {A B : Type} (f : A → result B) (l : list A) : ∀ bs,
  mapM f l = Ok bs → Forall2 (fun a b => f a = Ok b) l bs.
Proof.
  induction l as [|a l IH]; intros bs; cbn [mapM].
  - intros H. injection H as <-. constructor.
  - destruct (f a) as [b| |] eqn:Hb; cbn [mbind result_bind]; try discriminate.
    destruct (mapM f l) as [bs'| |]; cbn [mbind result_bind]; try discriminate.
    intros H. injection H as <-. constructor; [exact Hb|now apply IH].
Qed.

Lemma u32_index_bound (a n : nat) :
  (a < n)%nat → 0 ≤ u32 (Z.of_nat a) < Z.of_nat n.
Proof.
  intros Ha. unfold u32.
  assert (H32 : 0 < 2 ^ 32) by lia.
  pose proof (Z.mod_pos_bound (Z.of_nat a) (2 ^ 32) H32).
  pose proof (Z.mod_le (Z.of_nat a) (2 ^ 32) ltac:(lia) H32). lia.
Qed.

(** What [assemble] returns, in terms of the vertices and edges of
    [path_union]. *)
Lemma assemble_Ok E fuel DBF k paths sk :
  (∀ s, set_order E s ≡ₚ elements s) →
  assemble E fuel DBF k paths = Ok sk →
  ∃ (vs : list voxel) (es : list (nat * nat)),
    skel_vertices sk
    = map (fun v : voxel => let '(x, y, z) := v in (F32.of_Z x, F32.of_Z y, F32.of_Z z))
          (reshape3 (npv_of vs))
    ∧ skel_edges sk = reshape2 (npe_of es)
    ∧ Forall2 (fun v r => get DBF v = Ok r) (reshape3 (npv_of vs)) (skel_radii sk)
    ∧ ∀ a b, (a, b) ∈ es → (a < length vs)%nat ∧ (b < length vs)%nat.
Proof.
  intros Hperm. unfold assemble.
  destruct (mapM (downsample k) paths) as [paths'| |]; cbn [mbind result_bind];
    try discriminate.
  destruct (path_union (set_order E) fuel paths') as [[npv npe]| |] eqn:Hunion;
    cbn [mbind result_bind]; try discriminate.
  destruct (path_union_Ok (set_order E) Hperm paths' fuel npv npe Hunion)
    as (links & -> & -> & Hlinks).
  destruct (mapM (get DBF) (reshape3 (npv_of (vertices (build paths')))))
    as [radii| |] eqn:Hradii; cbn [mbind result_bind]; try discriminate.
  intros H. injection H as <-. cbn [skel_vertices skel_edges skel_radii].
  exists (vertices (build paths')), (edge_id paths' <$> links).
  split; [reflexivity|]. split; [reflexivity|].
  split; [now apply mapM_Ok|].
  intros a b Hab. apply list_elem_of_fmap in Hab as ([u v] & Heq & Hl).
  injection Heq as -> ->. cbn [fst snd].
  destruct (link_vertices paths' u v (Hlinks _ Hl)) as [Hu Hv].
  apply vertex_id_lookup in Hu as [_ Hu]. apply vertex_id_lookup in Hv as [_ Hv].
  apply lookup_lt_Some in Hu, Hv. auto.
Qed.

Lemma elem_of_stride_aux {A : Type} (k : nat) (l : list A) (x : A) : ∀ skip,
  x ∈ stride_aux k skip l → x ∈ l.
Proof.
  intros skip Hx. pose proof (stride_aux_sublist k l skip) as Hsub.
  eapply elem_of_sublist; eauto.
Qed.

Lemma downsample_Ok (k : Z) (p q : path) :
  downsample k p = Ok q →
  k ≠ 0 ∧ (∀ v, v ∈ q → v ∈ p) ∧ (q = [] → p = []).
Proof.
  unfold downsample, slice_0_m2, slice_last.
  destruct (k =? 0) eqn:Hk0; [discriminate|]. apply Z.eqb_neq in Hk0.
  assert (Hlast : ∀ v, v ∈ drop (length p - 1) p → v ∈ p).
  { intros v Hv. apply list_elem_of_lookup in Hv as [i Hi].
    rewrite lookup_drop in Hi. apply list_elem_of_lookup. eauto. }
  assert (Hne : drop (length p - 1) p = [] → p = []).
  { intros H. apply (f_equal length) in H. rewrite length_drop in H. cbn in H.
    destruct p; [reflexivity|cbn [length] in H; lia]. }
  destruct (0 <? k); cbn [mbind result_bind]; intros H; injection H as <-;
    (split; [exact Hk0|]); split.
  - intros v Hv. apply elem_of_app in Hv as [Hv|Hv]; [|now apply Hlast].
    apply elem_of_stride_aux in Hv. apply list_elem_of_lookup in Hv as [i Hi].
    apply lookup_take_Some in Hi as [Hi _]. apply list_elem_of_lookup. eauto.
  - intros H. apply app_eq_nil in H as [_ H]. now apply Hne.
  - intros v Hv. apply elem_of_app in Hv as [Hv|Hv]; [|now apply Hlast].
    destruct (length p =? 1)%nat; [exact Hv|now apply elem_of_nil in Hv].
  - intros H. apply app_eq_nil in H as [_ H]. now apply Hne.
Qed.

Lemma downsample_Raise (k : Z) (p : path) (e : exn) :
  downsample k p = Raise e → e = ValueError ∧ k = 0.
Proof.
  unfold downsample, slice_0_m2.
  destruct (k =? 0) eqn:Hk0.
  - apply Z.eqb_eq in Hk0. cbn [mbind result_bind]. intros H. injection H as <-. auto.
  - destruct (0 <? k); discriminate.
Qed.

Lemma downsample_fuel (k : Z) (p : path) : downsample k p ≠ OutOfFuel.
Proof.
  unfold downsample, slice_0_m2.
  destruct (k =? 0); [discriminate|]. destruct (0 <? k); discriminate.
Qed.

Lemma mapM_Raise {A B : Type} (f : A → result B) (l : list A) (e : exn) :
  mapM f l = Raise e → ∃ a, a ∈ l ∧ f a = Raise e.
Proof.
  induction l as [|a l IH]; cbn [mapM]; [discriminate|].
  destruct (f a) as [b| |] eqn:Hb; cbn [mbind result_bind].
  - destruct (mapM f l) as [bs| |]; cbn [mbind result_bind]; try discriminate.
    intros H. destruct (IH H) as (a' & Ha' & Hf).
    exists a'. split; [now apply list_elem_of_further|exact Hf].
  - intros H. injection H as <-. exists a. split; [apply list_elem_of_here|exact Hb].
  - discriminate.
Qed.

Lemma mapM_lookup {A B : Type} (f : A → result B) (l : list A) (bs : list B) :
  mapM f l = Ok bs → ∀ i b, bs !! i = Some b → ∃ a, l !! i = Some a ∧ f a = Ok b.
Proof.
  intros H i b Hb. apply mapM_Ok in H.
  destruct (Forall2_lookup_r _ _ _ _ _ H Hb) as (a & Ha & Hf). eauto.
Qed.

(** X14. From the extracted paths on, [TEASAR] can fail in two ways only: with
    ValueError, for a stride of 0, and with IndexError, for a first path
    without a vertex or for a vertex of some path whose coordinates, stored
    as uint32, lie outside the distance field. *)
Theorem assemble_failures
    (E : Collaborators) (fuel : nat) (DBF : field) (k : Z) (paths : list path)
    (e : exn) :
  (∀ s, set_order E s ≡ₚ elements s) →
  assemble E fuel DBF k paths = Raise e →
  (e = ValueError ∧ k = 0 ∧ paths ≠ [])
  ∨ (e = IndexError ∧ k ≠ 0
     ∧ (head paths = Some []
        ∨ ∃ p v, p ∈ paths ∧ v ∈ p
                 ∧ get DBF (u32 v.1.1, u32 v.1.2, u32 v.2) = Raise IndexError)).
Proof.
  intros Hperm. unfold assemble.
  destruct (mapM (downsample k) paths) as [paths'| |] eqn:Hdown;
    cbn [mbind result_bind]; [|intros H; injection H as <-|discriminate].
  2:{ left. apply mapM_Raise in Hdown as (p & Hp & Hd).
      apply downsample_Raise in Hd as [-> ->]. split; [reflexivity|].
      split; [reflexivity|]. intros ->. now apply elem_of_nil in Hp. }
  assert (Hk : paths ≠ [] → k ≠ 0).
  { destruct paths as [|p ps]; [congruence|]. intros _. cbn [mapM] in Hdown.
    destruct (downsample k p) as [q| |] eqn:Hq; cbn [mbind result_bind] in Hdown;
      try discriminate.
    now apply downsample_Ok in Hq as [Hk0 _]. }
  assert (Hfrom : ∀ q v, q ∈ paths' → v ∈ q → ∃ p, p ∈ paths ∧ v ∈ p).
  { intros q v Hq Hv. apply list_elem_of_lookup in Hq as [i Hi].
    destruct (mapM_lookup _ _ _ Hdown i q Hi) as (p & Hp & Hd).
    apply downsample_Ok in Hd as (_ & Hsub & _).
    exists p. split; [apply list_elem_of_lookup; eauto|now apply Hsub]. }
  destruct (path_union (set_order E) fuel paths') as [[npv npe]| |] eqn:Hunion;
    cbn [mbind result_bind]; [|intros H; injection H as <-|discriminate].
  2:{ right.
      apply (path_union_raises (set_order E) Hperm) in Hunion as [-> Hhead].
      destruct paths' as [|q qs]; [discriminate|]. injection Hhead as ->.
      destruct (mapM_lookup _ _ _ Hdown 0%nat [] eq_refl) as (p & Hp & Hd).
      apply downsample_Ok in Hd as (Hk0 & _ & Hnil). specialize (Hnil eq_refl).
      subst p. split; [reflexivity|]. split; [exact Hk0|]. left.
      now destruct paths. }
  destruct (path_union_Ok (set_order E) Hperm paths' fuel npv npe Hunion)
    as (links & -> & -> & Hlinks).
  destruct (mapM (get DBF) (reshape3 (npv_of (vertices (build paths')))))
    as [radii|e'|] eqn:Hradii; cbn [mbind result_bind]; try discriminate.
  intros H. injection H as ->.
  apply mapM_Raise in Hradii as (w & Hw & Hget).
  rewrite reshape3_npv_of in Hw.
  apply list_elem_of_fmap in Hw as ([[x y] z] & -> & Hv).
  assert (He : e = IndexError).
  { unfold get in Hget. destruct (ravel _ _); [destruct (data DBF !! _)|]; congruence. }
  subst e. right. split; [reflexivity|].
  apply (inv_vertices _ _ (links_inv_build paths')) in Hv as (w & Hl).
  assert (Hocc : ∃ q, q ∈ paths' ∧ (x, y, z) ∈ q).
  { destruct Hl as [Hl|Hl]; apply elem_of_all_links in Hl as (q & Hq & Hadj);
      apply elem_of_adjacent in Hadj as (i & Hi & Hi');
      exists q; (split; [exact Hq|]); apply list_elem_of_lookup; eauto. }
  destruct Hocc as (q & Hq & Hin). destruct (Hfrom q _ Hq Hin) as (p & Hp & Hvp).
  split; [apply Hk; intros ->; now apply elem_of_nil in Hp|].
  right. exists p, (x, y, z). auto.
Qed.

Lemma assemble_failures_witness :
  (IndexError = ValueError ∧ 1 = 0
   ∧ [[(0, 0, 0); (1, 0, 0); (5, 0, 0)]] ≠ ([] : list path))
  ∨ (IndexError = IndexError ∧ 1 ≠ 0
     ∧ (head [[(0, 0, 0); (1, 0, 0); (5, 0, 0)]] = Some []
        ∨ ∃ p v, p ∈ [[(0, 0, 0); (1, 0, 0); (5, 0, 0)]] ∧ v ∈ p
                 ∧ get (field_of (2, 1, 1)%nat []) (u32 v.1.1, u32 v.1.2, u32 v.2)
                   = Raise IndexError)).
Proof.
  apply (assemble_failures toy 5 (field_of (2, 1, 1)%nat []) 1
           [[(0, 0, 0); (1, 0, 0); (5, 0, 0)]] IndexError (fun s => reflexivity _)).
  vm_compute. reflexivity.
Defined.

(** The distance field [TEASAR] works with after root selection. *)
Lemma select_root_DBF E labels DBF o r :
  select_root E labels DBF o = Ok r →
  ∃ m, np_max DBF = Ok m
       ∧ r_DBF r = if fgt (F64.of_f32 m) (soma_detection_threshold o)
                   then edt E (binary_fill_holes E labels) (anisotropy o)
                   else DBF.
Proof.
  unfold select_root.
  destruct (np_max DBF) as [m| |]; cbn [mbind result_bind]; try discriminate.
  intros H. exists m. split; [reflexivity|].
  destruct (fgt (F64.of_f32 m) (soma_detection_threshold o)).
  - destruct (np_max _) as [m'| |]; cbn [mbind result_bind] in H; try discriminate.
    destruct (np_argmax _) as [i| |]; cbn [mbind result_bind] in H; try discriminate.
    now injection H as <-.
  - destruct (find_root E labels (anisotropy o)) as [root| |];
      cbn [mbind result_bind] in H; try discriminate.
    now injection H as <-.
Qed.

(** From the paths on, [TEASAR] is [assemble] on the working distance field,
    unless it has returned the empty skeleton for want of a root. *)
Lemma TEASAR_Ok E fuel labels DBF o sk :
  TEASAR E fuel labels DBF o = Ok sk →
  sk = empty_skeleton
  ∨ ∃ r paths, select_root E labels DBF o = Ok r
               ∧ assemble E fuel (r_DBF r) (path_downsample o) paths = Ok sk.
Proof.
  unfold TEASAR.
  destruct (select_root E labels DBF o) as [r| |]; cbn [mbind result_bind];
    try discriminate.
  destruct (r_root r) as [root|]; [|intros H; injection H as <-; now left].
  destruct (euclidean_distance_field E (r_labels r) root (anisotropy o)) as [DAF| |];
    cbn [mbind result_bind]; try discriminate.
  destruct (compute_paths _ _ _ _ _ _ _ _ _ _ _ _) as [paths| |];
    cbn [mbind result_bind]; try discriminate.
  intros H. right. exists r, paths. auto.
Qed.

(** X15. Every skeleton [TEASAR] returns has one radius for each vertex, and the
    two ends of each edge are numbers of vertices. *)
Theorem TEASAR_skeleton_is_well_formed
    (E : Collaborators) (fuel : nat) (labels : mask) (DBF : field) (o : options)
    (sk : skeleton) :
  (∀ s, set_order E s ≡ₚ elements s) →
  TEASAR E fuel labels DBF o = Ok sk →
  length (skel_radii sk) = length (skel_vertices sk)
  ∧ ∀ a b, (a, b) ∈ skel_edges sk →
      0 ≤ a < Z.of_nat (length (skel_vertices sk))
      ∧ 0 ≤ b < Z.of_nat (length (skel_vertices sk)).
Proof.
  intros Hperm Hrun.
  destruct (TEASAR_Ok E fuel labels DBF o sk Hrun) as [->|(r & paths & _ & Hasm)].
  - split; [reflexivity|]. intros a b H. now apply elem_of_nil in H.
  - destruct (assemble_Ok E fuel (r_DBF r) (path_downsample o) paths sk Hperm Hasm)
      as (vs & es & Hv & He & Hr & Hes).
    assert (Hlen : length (skel_vertices sk) = length vs).
    { rewrite Hv, reshape3_npv_of, !length_map. reflexivity. }
    split.
    + apply Forall2_length in Hr. rewrite <- Hr, Hv, length_map. reflexivity.
    + intros a b Hab. rewrite He, reshape2_npe_of in Hab.
      apply list_elem_of_fmap in Hab as ([a' b'] & Heq & Hab).
      injection Heq as -> ->. cbn [fst snd]. rewrite Hlen.
      destruct (Hes a' b' Hab). split; now apply u32_index_bound.
Qed.

Lemma TEASAR_skeleton_is_well_formed_witness :
  length (skel_radii walk_skeleton) = length (skel_vertices walk_skeleton)
  ∧ ∀ a b, (a, b) ∈ skel_edges walk_skeleton →
      0 ≤ a < Z.of_nat (length (skel_vertices walk_skeleton))
      ∧ 0 ≤ b < Z.of_nat (length (skel_vertices walk_skeleton)).
Proof.
  apply (TEASAR_skeleton_is_well_formed toy_walking 10
           (mask_of (4, 1, 1)%nat [(0, 0, 0); (3, 0, 0)])
           (field_of (4, 1, 1)%nat [((0, 0, 0), F32.one); ((3, 0, 0), F32.one)])
           walk_options walk_skeleton (fun s => reflexivity _)).
  vm_compute. reflexivity.
Defined.

(** X16. The radii are read, vertex by vertex, from the distance field [TEASAR]
    works with: the one passed in, or in soma mode the one recomputed by
    [edt] on the hole-filled mask. The vertices are the float32 values of the
    voxel coordinates. *)
Theorem radii_are_read_from_the_working_DBF
    (E : Collaborators) (fuel : nat) (labels : mask) (DBF : field) (o : options)
    (sk : skeleton) :
  (∀ s, set_order E s ≡ₚ elements s) →
  TEASAR E fuel labels DBF o = Ok sk →
  ∃ (m : float) (vox : list voxel),
    np_max DBF = Ok m
    ∧ skel_vertices sk
      = map (fun v : voxel => (F32.of_Z v.1.1, F32.of_Z v.1.2, F32.of_Z v.2)) vox
    ∧ Forall2 (fun v r =>
                 get (if fgt (F64.of_f32 m) (soma_detection_threshold o)
                      then edt E (binary_fill_holes E labels) (anisotropy o)
                      else DBF) v = Ok r)
              vox (skel_radii sk).
Proof.
  intros Hperm Hrun.
  assert (Hmax : ∃ r, select_root E labels DBF o = Ok r).
  { unfold TEASAR in Hrun. destruct (select_root E labels DBF o) as [r| |];
      try discriminate. now exists r. }
  destruct Hmax as [r Hsel].
  destruct (select_root_DBF E labels DBF o r Hsel) as (m & Hm & HD).
  exists m.
  destruct (TEASAR_Ok E fuel labels DBF o sk Hrun) as [->|(r' & paths & Hsel' & Hasm)].
  - exists []. split; [exact Hm|]. split; [reflexivity|constructor].
  - assert (r' = r) as -> by congruence.
    destruct (assemble_Ok E fuel (r_DBF r) (path_downsample o) paths sk Hperm Hasm)
      as (vs & es & Hv & _ & Hr & _).
    rewrite HD in Hr.
    exists (reshape3 (npv_of vs)). split; [exact Hm|].
    split; [|exact Hr]. rewrite Hv. apply map_ext. now intros [[x y] z].
Qed.

Lemma radii_are_read_from_the_working_DBF_witness :
  ∃ (m : float) (vox : list voxel),
    np_max (field_of (4, 1, 1)%nat [((0, 0, 0), F32.one); ((3, 0, 0), F32.one)]) = Ok m
    ∧ skel_vertices walk_skeleton
      = map (fun v : voxel => (F32.of_Z v.1.1, F32.of_Z v.1.2, F32.of_Z v.2)) vox
    ∧ Forall2 (fun v r =>
                 get (if fgt (F64.of_f32 m) (soma_detection_threshold walk_options)
                      then edt toy_walking
                             (binary_fill_holes toy_walking
                                (mask_of (4, 1, 1)%nat [(0, 0, 0); (3, 0, 0)]))
                             (anisotropy walk_options)
                      else field_of (4, 1, 1)%nat
                             [((0, 0, 0), F32.one); ((3, 0, 0), F32.one)]) v = Ok r)
              vox (skel_radii walk_skeleton).
Proof.
  apply (radii_are_read_from_the_working_DBF toy_walking 10
           (mask_of (4, 1, 1)%nat [(0, 0, 0); (3, 0, 0)])
           (field_of (4, 1, 1)%nat [((0, 0, 0), F32.one); ((3, 0, 0), F32.one)])
           walk_options walk_skeleton (fun s => reflexivity _)).
  vm_compute. reflexivity.
Defined.

(** ** The soma root inside the field *)

(** [np.unravel_index] gives the index at which the flat position lies. *)
Lemma ravel_unravel_index (nx ny nz i : nat) :
  (i < nx * ny * nz)%nat → ravel (nx, ny, nz) (unravel_index i (nx, ny, nz)) = Some i.
Proof.
  intros Hi. unfold ravel, unravel_index.
  assert (Hnz : (0 < nz)%nat) by (destruct nz; lia).
  assert (Hny : (0 < ny)%nat) by (destruct ny; lia).
  pose proof (Nat.div_mod_eq i nz) as Hz.
  pose proof (Nat.mod_upper_bound i nz ltac:(lia)) as Hzlt.
  pose proof (Nat.div_mod_eq (i / nz) ny) as Hy.
  pose proof (Nat.mod_upper_bound (i / nz) ny ltac:(lia)) as Hylt.
  assert (Hx : (i / (ny * nz) = i / nz / ny)%nat).
  { rewrite (Nat.mul_comm ny nz). symmetry. apply Nat.Div0.div_div. }
  assert (Hxlt : (i / (ny * nz) < nx)%nat).
  { apply Nat.Div0.div_lt_upper_bound. lia. }
  rewrite !Nat2Z.id.
  repeat match goal with
         | |- context [0 <=? Z.of_nat ?a] =>
             replace (0 <=? Z.of_nat a) with true by (symmetry; apply Z.leb_le; lia)
         end.
  replace (Z.of_nat (i / (ny * nz)) <? Z.of_nat nx) with true
    by (symmetry; apply Z.ltb_lt; lia).
  replace (Z.of_nat ((i / nz) mod ny) <? Z.of_nat ny) with true
    by (symmetry; apply Z.ltb_lt; lia).
  replace (Z.of_nat (i mod nz) <? Z.of_nat nz) with true
    by (symmetry; apply Z.ltb_lt; lia).
  cbn [andb]. f_equal. rewrite Hx. nia.
Qed.

(** X17. In soma mode the root lies inside the recomputed distance field, at an
    element that none exceeds, as long as the field has as many elements as
    its shape says. *)
Theorem soma_root_lies_in_the_field
    (E : Collaborators) (labels : mask) (DBF : field) (o : options) (r : rooted)
    (nx ny nz : nat) :
  select_root E labels DBF o = Ok r →
  r_soma_mode r = true →
  shape (r_DBF r) = (nx, ny, nz) →
  length (data (r_DBF r)) = (nx * ny * nz)%nat →
  ∃ root b, r_root r = Some root
            ∧ get (r_DBF r) root = Ok b
            ∧ ∀ v x, get (r_DBF r) v = Ok x → fgt x b = false.
Proof.
  unfold select_root.
  destruct (np_max DBF) as [m| |]; cbn [mbind result_bind]; try discriminate.
  destruct (fgt (F64.of_f32 m) (soma_detection_threshold o)).
  - set (DBF' := edt E (binary_fill_holes E labels) (anisotropy o)).
    destruct (np_max DBF') as [m'| |]; cbn [mbind result_bind]; try discriminate.
    destruct (np_argmax DBF') as [i| |] eqn:Harg; cbn [mbind result_bind];
      try discriminate.
    intros H _. injection H as <-. cbn [r_DBF r_root].
    intros Hsh Hlen.
    destruct (np_argmax_max DBF' i Harg) as (b & Hb & Hmax).
    exists (unravel_index i (shape DBF')), b. split; [reflexivity|].
    assert (Hi : (i < nx * ny * nz)%nat)
      by (rewrite <- Hlen; now apply lookup_lt_Some in Hb).
    split.
    + unfold get. rewrite Hsh, ravel_unravel_index by exact Hi. now rewrite Hb.
    + intros v x Hget. apply Hmax. unfold get in Hget.
      destruct (ravel (shape DBF') v) as [k|]; [|discriminate].
      destruct (data DBF' !! k) as [y|] eqn:Hy; [|discriminate].
      injection Hget as <-. apply list_elem_of_lookup. eauto.
  - destruct (find_root E labels (anisotropy o)) as [root| |];
      cbn [mbind result_bind]; try discriminate.
    intros H. injection H as <-. discriminate.
Qed.

Lemma soma_root_lies_in_the_field_witness :
  ∃ r root b,
    select_root toy (mask_of (2, 2, 2)%nat [(1, 0, 1)])
      (field_of (2, 2, 2)%nat [((1, 0, 1), F32.of_Z 7)])
      (mk_options (F64.of_Z 10) (F64.of_Z 10) (F64.of_Z 1, F64.of_Z 1, F64.of_Z 1)
         (F64.of_Z 5) (F64.of_Z 5000) 16 (F64.of_Z 0) (F64.of_Z 0) 1) = Ok r
    ∧ r_root r = Some root ∧ get (r_DBF r) root = Ok b.
Proof.
  destruct (select_root toy (mask_of (2, 2, 2)%nat [(1, 0, 1)])
      (field_of (2, 2, 2)%nat [((1, 0, 1), F32.of_Z 7)])
      (mk_options (F64.of_Z 10) (F64.of_Z 10) (F64.of_Z 1, F64.of_Z 1, F64.of_Z 1)
         (F64.of_Z 5) (F64.of_Z 5000) 16 (F64.of_Z 0) (F64.of_Z 0) 1))
    as [r| |] eqn:Hsel; [|vm_compute in Hsel; discriminate..].
  destruct (soma_root_lies_in_the_field _ _ _ _ _ 2 2 2 Hsel)
    as (root & b & Hroot & Hget & _);
    try (vm_compute in Hsel; injection Hsel as <-; reflexivity).
  exists r, root, b. auto.
Defined.

(** ** The exponents of the squaring branch *)

Lemma is_power_of_two_log2 (n : Z) :
  is_power_of_two n = true → 0 < n ∧ n = 2 ^ Z.log2 n.
Proof.
  unfold is_power_of_two. intros H. apply andb_true_iff in H as [Hnz Hland].
  apply negb_true_iff, Z.eqb_neq in Hnz. apply Z.eqb_eq in Hland.
  assert (Hn : 0 < n).
  { destruct (Z.lt_ge_cases n 0) as [Hneg|Hpos]; [|lia].
    assert (Z.land n (n - 1) < 0) by (apply Z.land_neg; lia). lia. }
  split; [exact Hn|].
  destruct (Z.log2_spec n Hn) as [Hlo Hhi].
  destruct (Z.eq_dec n (2 ^ Z.log2 n)) as [Heq|Hne]; [exact Heq|exfalso].
  assert (H1 : 0 < 2 ^ Z.log2 n) by (apply Z.pow_pos_nonneg; [lia|apply Z.log2_nonneg]).
  assert (Hlog : Z.log2 (n - 1) = Z.log2 n).
  { apply Z.log2_unique; [apply Z.log2_nonneg|lia]. }
  assert (Hbit : Z.testbit (Z.land n (n - 1)) (Z.log2 n) = true).
  { rewrite Z.land_spec, (Z.bit_log2 n) by exact Hn.
    rewrite <- Hlog. rewrite Z.bit_log2 by lia. reflexivity. }
  rewrite Hland in Hbit. now rewrite Z.bits_0 in Hbit.
Qed.

(** X18. [compute_pdrf] takes its squaring branch for the sixteen exponents
    1, 2, 4, ..., 32768 and for no other, and then squares log2 of the
    exponent times. *)
Theorem squaring_branch_exponents (pdrf_exponent : Z) :
  is_power_of_two pdrf_exponent && (pdrf_exponent <? 2 ^ 16) = true
  ↔ ∃ k, 0 ≤ k < 16 ∧ pdrf_exponent = 2 ^ k ∧ Z.log2 pdrf_exponent = k.
Proof.
  rewrite andb_true_iff, Z.ltb_lt. split.
  - intros [Hpow Hlt]. apply is_power_of_two_log2 in Hpow as [Hpos Hpow].
    exists (Z.log2 pdrf_exponent). split; [|auto].
    split; [apply Z.log2_nonneg|].
    apply Z.log2_lt_pow2; [exact Hpos|exact Hlt].
  - intros (k & Hk & -> & _). split; [apply is_power_of_two_pow2; lia|].
    apply Z.pow_lt_mono_r; lia.
Qed.

Lemma SFmul_self_not_negative prec emax (x : float) :
  not_negative (SFmul prec emax x x) = true.
Proof.
  destruct x as [[]|[]| |[] m e]; try reflexivity;
    unfold SFmul; cbn [xorb]; unfold binary_round_aux;
    destruct (shr_fexp _ _ _ _ _) as [mrs' e'];
    destruct (shr_fexp _ _ _ _ _) as [mrs'' e''];
    destruct (shr_m mrs''); try reflexivity;
    destruct (Z.leb _ _); reflexivity.
Qed.

(** X19. The squaring branch yields no negative value: after the first squaring
    every element has its sign bit clear or is NaN, whatever the distance
    field and the factor [M]. *)
Theorem squaring_branch_is_not_negative (pdrf_exponent : Z) (P : list float) (x : float) :
  2 ≤ pdrf_exponent →
  x ∈ pdrf_squaring F32.mul pdrf_exponent P →
  not_negative x = true.
Proof.
  intros He. unfold pdrf_squaring.
  assert (Hlog : 0 < Z.log2 pdrf_exponent) by (apply Z.log2_pos; lia).
  destruct (Z.to_nat (Z.log2 pdrf_exponent)) as [|n] eqn:Hn; [lia|].
  rewrite Nat.iter_succ. intros Hx.
  apply list_elem_of_fmap in Hx as (y & -> & _).
  apply SFmul_self_not_negative.
Qed.

Lemma squaring_branch_is_not_negative_witness :
  not_negative (F32.mul (F32.mul (F32.of_Z (-3)) (F32.of_Z (-3)))
                        (F32.mul (F32.of_Z (-3)) (F32.of_Z (-3)))) = true.
Proof.
  apply (squaring_branch_is_not_negative 4 [F32.of_Z (-3)]).
  - lia.
  - vm_compute. apply list_elem_of_here.
Defined.

(** ** A distance field of zeros *)

Lemma iter_square_nan (n : nat) (P : list float) :
  (∀ x, x ∈ P → x = S754_nan) →
  ∀ x, x ∈ Nat.iter n (map (fun p => F32.mul p p)) P → x = S754_nan.
Proof.
  intros HP. induction n as [|n IH]; [exact HP|].
  rewrite Nat.iter_succ. intros x Hx.
  apply list_elem_of_fmap in Hx as (y & -> & Hy). now rewrite (IH y Hy).
Qed.

Lemma np_max_zeros (a : field) (m : float) :
  (∀ d, d ∈ data a → d = S754_zero false) → np_max a = Ok m → m = S754_zero false.
Proof.
  unfold np_max. destruct (data a) as [|x xs]; [discriminate|].
  intros Hzero H. injection H as <-.
  rewrite (Hzero x) by apply list_elem_of_here.
  assert (Hxs : ∀ d, d ∈ xs → d = S754_zero false)
    by (intros d Hd; now apply Hzero, list_elem_of_further).
  clear Hzero. induction xs as [|y xs IH]; [reflexivity|].
  cbn [fold_left]. rewrite (Hxs y) by apply list_elem_of_here.
  apply IH. intros d Hd. now apply Hxs, list_elem_of_further.
Qed.

(** X22. A distance field that is zero throughout makes the penalised field
    NaN throughout on the squaring branch: [dbf_max ** 1.01] is 0, [M] is
    infinite, and [DBF * M] is 0 times infinity. (The power [0 ** 1.01] is
    taken to be 0, as the C library gives it.) *)
Theorem zero_DBF_gives_NaN_field
    (E : Collaborators) (dbf_max pdrf_scale : float) (pdrf_exponent : Z)
    (DBF DAF : field) :
  pow_1_01 E (S754_zero false) = S754_zero false →
  (∀ d, d ∈ data DBF → d = S754_zero false) →
  np_max DBF = Ok dbf_max →
  is_power_of_two pdrf_exponent && (pdrf_exponent <? 2 ^ 16) = true →
  forallb is_nan (data (compute_pdrf32 E dbf_max pdrf_scale pdrf_exponent DBF DAF))
  = true.
Proof.
  intros Hpow Hzero Hmax Hbranch.
  rewrite (np_max_zeros DBF dbf_max Hzero Hmax).
  apply forallb_forall. intros x Hx. apply list_elem_of_In in Hx.
  revert Hx. unfold compute_pdrf32, compute_pdrf. cbn [data].
  rewrite Hbranch.
  change (F64.of_f32 (S754_zero false)) with (S754_zero false). rewrite Hpow.
  change (F32.of_float (F64.div (F64.of_Z 1) (S754_zero false)))
    with (S754_infinity false).
  intros Hx. apply elem_of_lookup_zip_with in Hx as (i & p & a & -> & Hp & _).
  apply list_elem_of_lookup_2 in Hp.
  apply list_elem_of_fmap in Hp as (q & -> & Hq).
  assert (q = S754_nan) as ->; [|reflexivity].
  revert q Hq. apply iter_square_nan. intros b Hb.
  apply list_elem_of_fmap in Hb as (d & -> & Hd).
  now rewrite (Hzero d Hd).
Qed.

Lemma zero_DBF_gives_NaN_field_witness :
  forallb is_nan
    (data (compute_pdrf32 toy (S754_zero false) (F64.of_Z 5000) 16
             (field_of (2, 1, 1)%nat []) (field_of (2, 1, 1)%nat [])))
  = true.
Proof.
  apply (zero_DBF_gives_NaN_field toy (S754_zero false) (F64.of_Z 5000) 16
           (field_of (2, 1, 1)%nat []) (field_of (2, 1, 1)%nat [])).
  - reflexivity.
  - intros d Hd. vm_compute in Hd.
    repeat (apply elem_of_cons in Hd as [->|Hd]; [reflexivity|]).
    now apply elem_of_nil in Hd.
  - reflexivity.
  - reflexivity.
Defined.

(** ** The projection *)

Lemma np_index_lt n i k : np_index n i = Some k → (k < n)%nat.
Proof.
  unfold np_index.
  destruct ((0 <=? i) && (i <? Z.of_nat n)) eqn:H1.
  - intros H. injection H as <-. apply andb_true_iff in H1 as [H0 H1].
    apply Z.leb_le in H0. apply Z.ltb_lt in H1. lia.
  - destruct ((- Z.of_nat n <=? i) && (i <? 0)) eqn:H2; [|discriminate].
    intros H. injection H as <-. apply andb_true_iff in H2 as [H0 H2].
    apply Z.leb_le in H0. apply Z.ltb_lt in H2. lia.
Qed.

Lemma flat_index_inj (ny i j i' j' : nat) :
  (j < ny)%nat → (j' < ny)%nat → (i * ny + j = i' * ny + j')%nat → i = i' ∧ j = j'.
Proof.
  intros Hj Hj' Heq.
  destruct (Nat.lt_trichotomy i i') as [H|[H|H]].
  - assert ((i + 1) * ny ≤ i' * ny)%nat by (apply Nat.mul_le_mono_r; lia). lia.
  - subst i'. lia.
  - assert ((i' + 1) * ny ≤ i * ny)%nat by (apply Nat.mul_le_mono_r; lia). lia.
Qed.

Lemma lands_on_dec sh coords i j : lands_on sh coords i j ∨ ¬ lands_on sh coords i j.
Proof.
  induction coords as [|c coords IH].
  - right. intros (c & Hc & _). now apply elem_of_nil in Hc.
  - destruct IH as [(c' & Hc' & H')|IH].
    + left. exists c'. split; [now apply list_elem_of_further|exact H'].
    + destruct (decide (np_index sh.1 c.1.1 = Some i)) as [Hi|Hi];
        [destruct (decide (np_index sh.2 c.1.2 = Some j)) as [Hj|Hj]|].
      * left. exists c. split; [apply list_elem_of_here|auto].
      * right. intros (c' & Hc' & Hi' & Hj').
        apply elem_of_cons in Hc' as [->|Hc']; [tauto|]. apply IH. now exists c'.
      * right. intros (c' & Hc' & Hi' & Hj').
        apply elem_of_cons in Hc' as [->|Hc']; [tauto|]. apply IH. now exists c'.
Qed.

Lemma paint_Ok a c a' :
  paint a c = Ok a' →
  shape2 a' = shape2 a ∧ length (data2 a') = length (data2 a)
  ∧ ∃ i j, np_index (shape2 a).1 c.1.1 = Some i ∧ np_index (shape2 a).2 c.1.2 = Some j
           ∧ data2 a' = <[(i * (shape2 a).2 + j)%nat := 255]> (data2 a).
Proof.
  unfold paint. destruct (shape2 a) as [nx ny] eqn:Hsh. cbn [fst snd].
  destruct (np_index nx c.1.1) as [i|]; [|discriminate].
  destruct (np_index ny c.1.2) as [j|]; [|discriminate].
  intros H. injection H as <-. cbn [shape2 data2].
  split; [reflexivity|]. split; [apply length_insert|]. exists i, j. auto.
Qed.

Lemma paint_Raise a c e :
  paint a c = Raise e ↔
  e = IndexError ∧ (np_index (shape2 a).1 c.1.1 = None ∨ np_index (shape2 a).2 c.1.2 = None).
Proof.
  unfold paint. destruct (shape2 a) as [nx ny]. cbn [fst snd].
  destruct (np_index nx c.1.1) as [i|], (np_index ny c.1.2) as [j|]; split;
    try discriminate;
    try (intros [_ [H|H]]; discriminate);
    try (intros H; injection H as <-; now auto);
    intros [-> _]; reflexivity.
Qed.

Lemma foldM_paint_Ok (coords : list voxel) : ∀ a a',
  foldM paint coords a = Ok a' →
  shape2 a' = shape2 a ∧ length (data2 a') = length (data2 a)
  ∧ ∀ i j, (i < (shape2 a).1)%nat → (j < (shape2 a).2)%nat →
      (lands_on (shape2 a) coords i j → (i * (shape2 a).2 + j < length (data2 a))%nat →
         get2 a' i j = Some 255)
      ∧ (¬ lands_on (shape2 a) coords i j → get2 a' i j = get2 a i j).
Proof.
  induction coords as [|c coords IH]; intros a a'; cbn [foldM].
  - intros H. injection H as <-. split; [reflexivity|]. split; [reflexivity|].
    intros i j _ _. split; [|reflexivity].
    intros (c & Hc & _). now apply elem_of_nil in Hc.
  - destruct (paint a c) as [a1| |] eqn:Hp; cbn [mbind result_bind]; try discriminate.
    intros Hrest. apply paint_Ok in Hp as (Hsh1 & Hlen1 & i0 & j0 & Hi0 & Hj0 & Hdata).
    apply IH in Hrest as (Hsh & Hlen & Hpix).
    rewrite Hsh1 in Hsh, Hpix. rewrite Hlen1 in Hlen.
    split; [exact Hsh|]. split; [exact Hlen|].
    intros i j Hi Hj. destruct (Hpix i j Hi Hj) as [Hon Hoff].
    pose proof (np_index_lt _ _ _ Hj0) as Hj0lt.
    assert (Hhere : (i = i0 ∧ j = j0) ∨ (i * (shape2 a).2 + j ≠ i0 * (shape2 a).2 + j0)%nat).
    { destruct (decide (i = i0)) as [->|Hne]; [destruct (decide (j = j0)) as [->|Hne]|];
        [now left|right; lia|right].
      intros Heq. apply flat_index_inj in Heq; [tauto|exact Hj|exact Hj0lt]. }
    split.
    + intros Hland Hin.
      destruct (lands_on_dec (shape2 a) coords i j) as [Hl|Hnl].
      * apply Hon; [exact Hl|]. now rewrite Hlen1.
      * rewrite (Hoff Hnl). unfold get2. rewrite Hsh1, Hdata.
        destruct Hland as (c' & Hc' & Hi' & Hj').
        apply elem_of_cons in Hc' as [->|Hc']; [|exfalso; apply Hnl; now exists c'].
        assert (i0 = i) as -> by congruence. assert (j0 = j) as -> by congruence.
        now apply list_lookup_insert_eq.
    + intros Hnl. rewrite Hoff.
      * unfold get2. rewrite Hsh1, Hdata.
        destruct Hhere as [[-> ->]|Hne];
          [exfalso; apply Hnl; exists c; split; [apply list_elem_of_here|auto]|].
        now apply list_lookup_insert_ne.
      * intros (c' & Hc' & H'). apply Hnl. exists c'. split; [|exact H'].
        now apply list_elem_of_further.
Qed.

Lemma foldM_paint_concat (ps : list path) : ∀ a,
  foldM (fun projection p => foldM paint p projection) ps a
  = foldM paint (concat ps) a.
Proof.
  induction ps as [|p ps IH]; intros a; [reflexivity|].
  cbn [foldM concat]. revert a.
  induction p as [|c p IHp]; intros a; cbn [foldM app].
  - apply IH.
  - destruct (paint a c) as [a'| |]; cbn [mbind result_bind]; [|reflexivity..].
    specialize (IHp a').
    destruct (foldM paint p a') as [a''| |]; cbn [mbind result_bind] in IHp |- *;
      exact IHp.
Qed.

Lemma xy_path_projection_unfold paths labels :
  xy_path_projection paths labels
  = (projection ← foldM paint (path_voxels paths) (outline labels);
     Ok (transpose2 projection)).
Proof.
  unfold xy_path_projection. rewrite foldM_paint_concat.
  destruct paths as [p|ps]; cbn [path_voxels concat]; [|reflexivity].
  now rewrite app_nil_r.
Qed.

Lemma foldM_paint_Raise (coords : list voxel) : ∀ a e,
  foldM paint coords a = Raise e ↔
  e = IndexError
  ∧ ∃ c, c ∈ coords ∧ (np_index (shape2 a).1 c.1.1 = None
                        ∨ np_index (shape2 a).2 c.1.2 = None).
Proof.
  induction coords as [|c coords IH]; intros a e; cbn [foldM].
  - split; [discriminate|]. intros (_ & c & Hc & _). now apply elem_of_nil in Hc.
  - destruct (paint a c) as [a'| |] eqn:Hp; cbn [mbind result_bind].
    + apply paint_Ok in Hp as (Hsh & _ & i & j & Hi & Hj & _).
      rewrite IH, Hsh. split; intros (He & c' & Hc' & H'); (split; [exact He|]).
      * exists c'. split; [now apply list_elem_of_further|exact H'].
      * exists c'. split; [|exact H'].
        apply elem_of_cons in Hc' as [->|Hc']; [|exact Hc'].
        destruct H' as [H'|H']; congruence.
    + apply paint_Raise in Hp as [-> Hc]. split.
      * intros H. injection H as <-. split; [reflexivity|].
        exists c. split; [apply list_elem_of_here|exact Hc].
      * now intros [-> _].
    + exfalso. unfold paint in Hp. destruct (shape2 a).
      destruct (np_index _ _); [destruct (np_index _ _)|]; discriminate.
Qed.

Lemma foldM_paint_fuel (coords : list voxel) : ∀ a, foldM paint coords a ≠ OutOfFuel.
Proof.
  induction coords as [|c coords IH]; intros a; cbn [foldM]; [discriminate|].
  destruct (paint a c) as [a'| |] eqn:Hp; cbn [mbind result_bind];
    [apply IH|discriminate|].
  unfold paint in Hp. destruct (shape2 a).
  destruct (np_index _ _); [destruct (np_index _ _)|]; discriminate.
Qed.

(** X20. The projection fails exactly when a path holds a voxel whose x or y lies
    outside [-n, n) for the length n of its axis, and then with IndexError;
    negative coordinates from -n on are accepted and count from the end. *)
Theorem projection_fails_iff_out_of_bounds
    (paths : paths_arg) (labels : mask) (e : exn) :
  xy_path_projection paths labels = Raise e ↔
  e = IndexError
  ∧ ∃ c, c ∈ path_voxels paths
         ∧ (np_index (shape labels).1.1 c.1.1 = None
            ∨ np_index (shape labels).1.2 c.1.2 = None).
Proof.
  rewrite xy_path_projection_unfold.
  assert (Hsh : shape2 (outline labels) = ((shape labels).1.1, (shape labels).1.2)).
  { unfold outline. now destruct (shape labels) as [[nx ny] nz]. }
  pose proof (foldM_paint_Raise (path_voxels paths) (outline labels) e) as Hfold.
  rewrite Hsh in Hfold. cbn [fst snd] in Hfold. rewrite <- Hfold.
  destruct (foldM paint (path_voxels paths) (outline labels)) as [a| |];
    cbn [mbind result_bind]; split; try discriminate; auto.
Qed.

Lemma flat_index_lt (nx ny i j : nat) :
  (i < nx)%nat → (j < ny)%nat → (i * ny + j < nx * ny)%nat.
Proof.
  intros Hi Hj.
  assert ((i + 1) * ny ≤ nx * ny)%nat by (apply Nat.mul_le_mono_r; lia). lia.
Qed.

Lemma existsb_take_drop (l : list bool) (k n : nat) :
  existsb id (take n (drop k l)) = true
  ↔ ∃ z, (z < n)%nat ∧ l !! (k + z)%nat = Some true.
Proof.
  rewrite existsb_exists. split.
  - intros (b & Hin & Hb). unfold id in Hb. subst b.
    apply list_elem_of_In, list_elem_of_lookup in Hin as [z Hz].
    apply lookup_take_Some in Hz as [Hz Hlt]. rewrite lookup_drop in Hz. eauto.
  - intros (z & Hlt & Hz). exists true. split; [|reflexivity].
    apply list_elem_of_In, list_elem_of_lookup. exists z.
    apply lookup_take_Some. split; [|exact Hlt]. now rewrite lookup_drop.
Qed.

Lemma in_mask_column (labels : mask) (nx ny nz i j : nat) (z : Z) :
  shape labels = (nx, ny, nz) → (i < nx)%nat → (j < ny)%nat →
  in_mask labels (Z.of_nat i, Z.of_nat j, z) = true
  ↔ ∃ k, (k < nz)%nat ∧ z = Z.of_nat k
         ∧ data labels !! ((i * ny + j) * nz + k)%nat = Some true.
Proof.
  intros Hsh Hi Hj. unfold in_mask, get, ravel. rewrite Hsh.
  destruct (0 <=? Z.of_nat i) eqn:H1; [|apply Z.leb_gt in H1; lia].
  destruct (Z.of_nat i <? Z.of_nat nx) eqn:H2; [|apply Z.ltb_ge in H2; lia].
  destruct (0 <=? Z.of_nat j) eqn:H3; [|apply Z.leb_gt in H3; lia].
  destruct (Z.of_nat j <? Z.of_nat ny) eqn:H4; [|apply Z.ltb_ge in H4; lia].
  cbn [andb]. rewrite !Nat2Z.id.
  destruct (0 <=? z) eqn:H5; cbn [andb].
  - apply Z.leb_le in H5. destruct (z <? Z.of_nat nz) eqn:H6.
    + apply Z.ltb_lt in H6.
      replace (i * (ny * nz) + j * nz + Z.to_nat z)%nat
        with ((i * ny + j) * nz + Z.to_nat z)%nat by lia.
      split.
      * intros H. exists (Z.to_nat z). split; [lia|]. split; [lia|].
        destruct (data labels !! _) as [[]|]; congruence.
      * intros (k & Hk & -> & Hdata). rewrite Nat2Z.id. now rewrite Hdata.
    + apply Z.ltb_ge in H6. split; [discriminate|]. intros (k & Hk & -> & _). lia.
  - apply Z.leb_gt in H5. split; [discriminate|]. intros (k & Hk & -> & _). lia.
Qed.

Lemma outline_lookup (labels : mask) (nx ny nz i j : nat) :
  shape labels = (nx, ny, nz) → (i < nx)%nat → (j < ny)%nat →
  shape2 (outline labels) = (nx, ny)
  ∧ length (data2 (outline labels)) = (nx * ny)%nat
  ∧ ((∃ z, in_mask labels (Z.of_nat i, Z.of_nat j, z) = true) →
       get2 (outline labels) i j = Some 77)
  ∧ ((∀ z, in_mask labels (Z.of_nat i, Z.of_nat j, z) = false) →
       get2 (outline labels) i j = Some 0).
Proof.
  intros Hsh Hi Hj. unfold outline, get2. rewrite Hsh. cbn [shape2 data2 snd].
  split; [reflexivity|]. split; [now rewrite length_map, length_seq|].
  rewrite list_lookup_fmap, lookup_seq_lt by now apply flat_index_lt.
  cbn [fmap option_fmap option_map Nat.add].
  destruct (existsb id _) eqn:Hany.
  - split; [reflexivity|]. intros Hnone. exfalso.
    apply existsb_take_drop in Hany as (k & Hk & Hdata).
    specialize (Hnone (Z.of_nat k)).
    assert (in_mask labels (Z.of_nat i, Z.of_nat j, Z.of_nat k) = true); [|congruence].
    apply (in_mask_column labels nx ny nz); eauto.
  - split; [|reflexivity]. intros (z & Hz). exfalso.
    apply (in_mask_column labels nx ny nz) in Hz as (k & Hk & -> & Hdata); auto.
    assert (existsb id (take nz (drop ((i * ny + j) * nz) (data labels))) = true);
      [|congruence].
    apply existsb_take_drop. eauto.
Qed.

Lemma lookup_rows {A : Type} (f : nat → nat → A) (m : nat) : ∀ (n s j i : nat),
  (j < n)%nat → (i < m)%nat →
  flat_map (fun j => map (f j) (seq 0 m)) (seq s n) !! (j * m + i)%nat
  = Some (f (s + j)%nat i).
Proof.
  induction n as [|n IH]; intros s j i Hj Hi; [lia|].
  cbn [seq flat_map]. destruct j as [|j].
  - rewrite lookup_app_l by (rewrite length_map, length_seq; lia).
    cbn [Nat.mul Nat.add]. rewrite list_lookup_fmap, lookup_seq_lt by exact Hi.
    cbn. now rewrite Nat.add_0_r.
  - rewrite lookup_app_r by (rewrite length_map, length_seq; lia).
    rewrite length_map, length_seq.
    replace (S j * m + i - m)%nat with (j * m + i)%nat by lia.
    rewrite IH by lia. f_equal. f_equal. lia.
Qed.

Lemma transpose2_lookup (a : array2) (i j : nat) :
  (i < (shape2 a).1)%nat → (j < (shape2 a).2)%nat →
  (length (data2 a) = (shape2 a).1 * (shape2 a).2)%nat →
  shape2 (transpose2 a) = ((shape2 a).2, (shape2 a).1)
  ∧ get2 (transpose2 a) j i = get2 a i j.
Proof.
  unfold transpose2, get2. destruct (shape2 a) as [nx ny]. cbn [fst snd shape2 data2].
  intros Hi Hj Hlen. split; [reflexivity|].
  rewrite (lookup_rows (fun j i => default 0 (data2 a !! (i * ny + j)%nat)) nx ny 0 j i)
    by assumption.
  cbn [Nat.add].
  destruct (data2 a !! (i * ny + j)%nat) as [x|] eqn:Hx; [reflexivity|].
  apply lookup_ge_None in Hx. pose proof (flat_index_lt nx ny i j Hi Hj). lia.
Qed.

(** X21. The image handed over for saving has a pixel for each (x, y) of the
    volume, stored at row y and column x: 255 where a voxel of a path lands,
    otherwise 77 where the column of [labels] above (x, y) holds a true
    voxel, otherwise 0. *)
Theorem projection_pixels
    (paths : paths_arg) (labels : mask) (img : array2) (nx ny nz i j : nat) :
  shape labels = (nx, ny, nz) →
  xy_path_projection paths labels = Ok img →
  (i < nx)%nat → (j < ny)%nat →
  shape2 img = (ny, nx)
  ∧ (lands_on (nx, ny) (path_voxels paths) i j → get2 img j i = Some 255)
  ∧ (¬ lands_on (nx, ny) (path_voxels paths) i j →
     (∃ z, in_mask labels (Z.of_nat i, Z.of_nat j, z) = true) →
     get2 img j i = Some 77)
  ∧ (¬ lands_on (nx, ny) (path_voxels paths) i j →
     (∀ z, in_mask labels (Z.of_nat i, Z.of_nat j, z) = false) →
     get2 img j i = Some 0).
Proof.
  intros Hsh Hrun Hi Hj. rewrite xy_path_projection_unfold in Hrun.
  destruct (foldM paint (path_voxels paths) (outline labels)) as [a| |] eqn:Hfold;
    cbn [mbind result_bind] in Hrun; try discriminate.
  injection Hrun as <-.
  destruct (outline_lookup labels nx ny nz i j Hsh Hi Hj) as (Hosh & Holen & H77 & H0).
  apply foldM_paint_Ok in Hfold as (Hash & Halen & Hpix).
  rewrite Hosh in Hash, Hpix. rewrite Holen in Halen. cbn [fst snd] in Hpix.
  destruct (Hpix i j Hi Hj) as [Hon Hoff].
  destruct (transpose2_lookup a i j) as [Htsh ->];
    [rewrite Hash; exact Hi|rewrite Hash; exact Hj|now rewrite Hash|].
  rewrite Htsh, Hash. cbn [fst snd]. split; [reflexivity|].
  split; [|split].
  - intros Hl. apply Hon; [exact Hl|]. rewrite Holen. now apply flat_index_lt.
  - intros Hnl Hcol. rewrite (Hoff Hnl). now apply H77.
  - intros Hnl Hcol. rewrite (Hoff Hnl). now apply H0.
Qed.

Lemma projection_pixels_witness :
  ∃ img,
    xy_path_projection (path_list [[(2, 0, 0); (-1, 1, 0)]])
      (mask_of (3, 2, 1)%nat [(0, 1, 0)]) = Ok img
    ∧ get2 img 1 2 = Some 255 ∧ get2 img 1 0 = Some 77 ∧ get2 img 0 1 = Some 0.
Proof.
  destruct (xy_path_projection (path_list [[(2, 0, 0); (-1, 1, 0)]])
              (mask_of (3, 2, 1)%nat [(0, 1, 0)])) as [img| |] eqn:Hrun;
    [|vm_compute in Hrun; discriminate..].
  exists img. split; [reflexivity|].
  destruct (projection_pixels (path_list [[(2, 0, 0); (-1, 1, 0)]])
              (mask_of (3, 2, 1)%nat [(0, 1, 0)]) img 3 2 1 2 1 eq_refl Hrun)
    as (_ & H255 & _); [lia..|].
  destruct (projection_pixels (path_list [[(2, 0, 0); (-1, 1, 0)]])
              (mask_of (3, 2, 1)%nat [(0, 1, 0)]) img 3 2 1 0 1 eq_refl Hrun)
    as (_ & _ & H77 & _); [lia..|].
  destruct (projection_pixels (path_list [[(2, 0, 0); (-1, 1, 0)]])
              (mask_of (3, 2, 1)%nat [(0, 1, 0)]) img 3 2 1 1 0 eq_refl Hrun)
    as (_ & _ & _ & H0); [lia..|].
  assert (Hoff : ∀ i j, (i, j) ≠ (2, 0)%nat → (i, j) ≠ (2, 1)%nat →
            ¬ lands_on (3, 2)%nat (path_voxels (path_list [[(2, 0, 0); (-1, 1, 0)]])) i j).
  { intros i j H1 H2 (c & Hc & Hi & Hj). cbn [path_voxels concat app] in Hc.
    repeat (apply elem_of_cons in Hc as [->|Hc];
            [vm_compute in Hi, Hj; congruence|]).
    now apply elem_of_nil in Hc. }
  split; [|split].
  - apply H255. exists (-1, 1, 0). split; [|split; reflexivity].
    cbn [path_voxels concat app]. apply list_elem_of_further, list_elem_of_here.
  - apply H77; [apply Hoff; congruence|]. exists 0. reflexivity.
  - apply H0; [apply Hoff; congruence|].
    intros z. destruct z as [|[z|z|]|z]; reflexivity.
Defined.
